(** * Resource Saver: the capture popup and the resource catalog

    A shallow embedding of [entrypoints/popup/App.tsx] and of the two
    [config.ts] variants, together with a model of the catalog store and
    service that the popup talks to.

    JavaScript strings are sequences of UTF-16 code units; they are
    modelled as [list N].  The browser's local storage is a finite map
    from strings to strings.  Handlers of the React component are state
    transformers on the component state that also return the effects
    they issue (network requests, timers). *)

From Stdlib Require Import ZArith NArith Lia String Ascii Sorted.
From Equations Require Import Equations.
From stdpp Require Import base numbers list option gmap.

Local Open Scope N_scope.

(** ** JavaScript strings *)

Module JS.

Abbreviation code_unit := N (only parsing).
Abbreviation jsstring := (list N) (only parsing).

(** The longest prefix of [s] whose elements satisfy [p], and what
    follows it. *)
Fixpoint take_while {A} (p : A → bool) (s : list A) : list A :=
  match s with
  | c :: r => if p c then c :: take_while p r else []
  | [] => []
  end.

Fixpoint drop_while {A} (p : A → bool) (s : list A) : list A :=
  match s with
  | c :: r => if p c then drop_while p r else s
  | [] => []
  end.

(** An ASCII source literal as a sequence of code units. *)
Definition lit (s : string) : jsstring :=
  map N_of_ascii (list_ascii_of_string s).

(** [WhiteSpace] and [LineTerminator] of ECMAScript: the characters
    stripped by [String.prototype.trim] and matched by the regular
    expression class [\s]. *)
Definition is_ws (c : code_unit) : bool :=
  (9 <=? c) && (c <=? 13)
  || (c =? 32) || (c =? 160) || (c =? 5760)
  || (8192 <=? c) && (c <=? 8202)
  || (c =? 8232) || (c =? 8233) || (c =? 8239) || (c =? 8287)
  || (c =? 12288) || (c =? 65279).

(** [s.trim()] *)
Definition trimStart (s : jsstring) : jsstring := drop_while is_ws s.
Definition trimEnd (s : jsstring) : jsstring :=
  reverse (drop_while is_ws (reverse s)).
Definition trim (s : jsstring) : jsstring := trimEnd (trimStart s).

(** Truthiness of a string value: only the empty string is falsy. *)
Definition truthy (s : jsstring) : bool :=
  match s with [] => false | _ :: _ => true end.

(** [s.startsWith(p)] at position 0 and [s.includes(sub)]. *)
Fixpoint startsWith (p s : jsstring) : bool :=
  match p, s with
  | [], _ => true
  | _ :: _, [] => false
  | a :: p', b :: s' => (a =? b) && startsWith p' s'
  end.

Fixpoint includes (s sub : jsstring) : bool :=
  startsWith sub s ||
  match s with
  | [] => false
  | _ :: s' => includes s' sub
  end.

(** [s.replace(/\s+/g, r)].  The scan goes from the left.  The
    expression [\s+] matches at a position exactly when the code unit
    there is white space, and being greedy it then consumes the whole
    run of white space that starts there: the replacement is emitted and
    the scan resumes after the run.  Where it does not match, one code
    unit is copied and the scan moves on. *)
Lemma length_drop_while {A} (p : A → bool) (s : list A) :
  (length (drop_while p s) ≤ length s)%nat.
Proof.
  induction s as [|d s IH]; simpl; [lia|]. destruct (p d); simpl; lia.
Qed.

Equations? replace_ws_plus (r : jsstring) (s : jsstring) : jsstring
  by wf (length s) lt :=
replace_ws_plus r [] := [];
replace_ws_plus r (c :: s') :=
  if is_ws c then r ++ replace_ws_plus r (drop_while is_ws s')
  else c :: replace_ws_plus r s'.
Proof.
  - pose proof (length_drop_while is_ws s'). simpl. lia.
  - simpl. lia.
Qed.

(** [s.replace(pat, rep)] with a string pattern: only the first
    occurrence of [pat] is replaced.  The replacement is taken as it is,
    which is what JavaScript does when it contains no dollar sign. *)
Fixpoint replace_first (pat rep s : jsstring) : jsstring :=
  if startsWith pat s then rep ++ drop (length pat) s
  else
    match s with
    | [] => []
    | c :: s' => c :: replace_first pat rep s'
    end.

(** Exceptions, and computations that either return or throw. *)
Inductive exn : Type :=
| SyntaxError
| TypeError (message : jsstring)
| Error (message : jsstring)
| Thrown (value : jsstring).

Inductive completion (A : Type) : Type :=
| Return (a : A)
| Throw (e : exn).
Arguments Return {A} a.
Arguments Throw {A} e.

(** [try { body } catch { handler }] *)
Definition try_catch {A} (body : completion A) (handler : exn → completion A)
  : completion A :=
  match body with
  | Return a => Return a
  | Throw e => handler e
  end.

End JS.

(** ** JSON: the values, [JSON.stringify] and [JSON.parse] *)

Module JSON.
Import JS.

(** The JavaScript values that JSON text denotes.  A number is kept as
    its literal; the members of an object are listed in the order in
    which they were created. *)
#[warnings="-register-all"]
Inductive json : Type :=
| JNull
| JBool (b : bool)
| JNumber (literal : jsstring)
| JString (s : jsstring)
| JArray (elements : list json)
| JObject (members : list (jsstring * json)).

(** *** Serialisation *)

Definition is_high_surrogate (c : code_unit) : bool :=
  (55296 <=? c) && (c <=? 56319).
Definition is_low_surrogate (c : code_unit) : bool :=
  (56320 <=? c) && (c <=? 57343).

Definition hex_digit (n : N) : code_unit :=
  if n <? 10 then 48 + n else 87 + n.

(** [\uXXXX] with lower-case hexadecimal digits *)
Definition unicode_escape (c : code_unit) : jsstring :=
  [92; 117; hex_digit (c / 4096 mod 16); hex_digit (c / 256 mod 16);
   hex_digit (c / 16 mod 16); hex_digit (c mod 16)].

(** The text of one code unit that is not a surrogate. *)
Definition quote_unit (c : code_unit) : jsstring :=
  if c =? 8 then [92; 98]
  else if c =? 9 then [92; 116]
  else if c =? 10 then [92; 110]
  else if c =? 12 then [92; 102]
  else if c =? 13 then [92; 114]
  else if c =? 34 then [92; 34]
  else if c =? 92 then [92; 92]
  else if c <? 32 then unicode_escape c
  else [c].

(** [QuoteJSONString] without the enclosing quotes: the string is read
    as code points, so a high surrogate followed by a low one is copied
    as a pair and any other surrogate is escaped. *)
Fixpoint quote_body (s : jsstring) : jsstring :=
  match s with
  | [] => []
  | c :: r =>
    if is_high_surrogate c then
      match r with
      | d :: r' =>
        if is_low_surrogate d then c :: d :: quote_body r'
        else unicode_escape c ++ quote_body r
      | [] => unicode_escape c
      end
    else if is_low_surrogate c then unicode_escape c ++ quote_body r
    else quote_unit c ++ quote_body r
  end.

Definition quote (s : jsstring) : jsstring := 34 :: quote_body s ++ [34].

(** The items of an array or object, separated by commas. *)
Fixpoint join_comma (items : list jsstring) : jsstring :=
  match items with
  | [] => []
  | [x] => x
  | x :: r => x ++ 44 :: join_comma r
  end.

(** [JSON.stringify(v)] with no replacer and no indentation. *)
Fixpoint stringify (v : json) : jsstring :=
  match v with
  | JNull => lit "null"
  | JBool true => lit "true"
  | JBool false => lit "false"
  | JNumber n => n
  | JString s => quote s
  | JArray l => 91 :: join_comma (map stringify l) ++ [93]
  | JObject m =>
    123 :: join_comma (map (λ kv, quote kv.1 ++ 58 :: stringify kv.2) m) ++ [125]
  end.

(** *** Parsing *)

Definition is_json_ws (c : code_unit) : bool :=
  (c =? 9) || (c =? 10) || (c =? 13) || (c =? 32).

Definition skip_ws (s : jsstring) : jsstring := drop_while is_json_ws s.

Definition is_digit (c : code_unit) : bool := (48 <=? c) && (c <=? 57).

Definition hex_value (c : code_unit) : option N :=
  if (48 <=? c) && (c <=? 57) then Some (c - 48)
  else if (97 <=? c) && (c <=? 102) then Some (c - 87)
  else if (65 <=? c) && (c <=? 70) then Some (c - 55)
  else None.

(** The character denoted by a two-character escape. *)
Definition simple_escape (e : code_unit) : option code_unit :=
  if e =? 34 then Some 34
  else if e =? 92 then Some 92
  else if e =? 47 then Some 47
  else if e =? 98 then Some 8
  else if e =? 102 then Some 12
  else if e =? 110 then Some 10
  else if e =? 114 then Some 13
  else if e =? 116 then Some 9
  else None.

(** The characters of a string literal after its opening quote, up to
    and including the closing quote. *)
Fixpoint parse_chars (s : jsstring) : option (jsstring * jsstring) :=
  match s with
  | [] => None
  | c :: r =>
    if c =? 34 then Some ([], r)
    else if c =? 92 then
      match r with
      | [] => None
      | e :: r1 =>
        if e =? 117 then
          match r1 with
          | h1 :: h2 :: h3 :: h4 :: r2 =>
            match hex_value h1, hex_value h2, hex_value h3, hex_value h4 with
            | Some a, Some b, Some c', Some d =>
              match parse_chars r2 with
              | Some (body, rest) =>
                Some (((a * 16 + b) * 16 + c') * 16 + d :: body, rest)
              | None => None
              end
            | _, _, _, _ => None
            end
          | _ => None
          end
        else
          match simple_escape e with
          | Some x =>
            match parse_chars r1 with
            | Some (body, rest) => Some (x :: body, rest)
            | None => None
            end
          | None => None
          end
      end
    else if c <? 32 then None
    else
      match parse_chars r with
      | Some (body, rest) => Some (c :: body, rest)
      | None => None
      end
  end.

(** A non-empty run of decimal digits. *)
Definition parse_digits (s : jsstring) : option (jsstring * jsstring) :=
  match take_while is_digit s with
  | [] => None
  | ds => Some (ds, drop_while is_digit s)
  end.

(** A number literal: an optional minus sign; then a single zero, or a
    digit from 1 to 9 followed by any digits; then optionally a point and
    at least one digit; then optionally [e] or [E], an optional sign and
    at least one digit. *)
Definition parse_number (s : jsstring) : option (jsstring * jsstring) :=
  let '(sign, s1) :=
    match s with
    | c :: r => if c =? 45 then ([c], r) else ([], s)
    | [] => ([], s)
    end in
  match s1 with
  | [] => None
  | d :: r1 =>
    if is_digit d then
      let '(int, s2) :=
        if d =? 48 then ([d], r1)
        else (d :: take_while is_digit r1, drop_while is_digit r1) in
      let frac :=
        match s2 with
        | c :: r2 =>
          if c =? 46 then
            match parse_digits r2 with
            | Some (ds, s3) => Some (c :: ds, s3)
            | None => None
            end
          else Some ([], s2)
        | [] => Some ([], s2)
        end in
      match frac with
      | None => None
      | Some (fr, s3) =>
        let exp :=
          match s3 with
          | c :: r3 =>
            if (c =? 101) || (c =? 69) then
              let '(esign, s4) :=
                match r3 with
                | g :: r4 =>
                  if (g =? 43) || (g =? 45) then ([g], r4) else ([], r3)
                | [] => ([], r3)
                end in
              match parse_digits s4 with
              | Some (ds, s5) => Some (c :: esign ++ ds, s5)
              | None => None
              end
            else Some ([], s3)
          | [] => Some ([], s3)
          end in
        match exp with
        | None => None
        | Some (ex, s5) => Some (sign ++ int ++ fr ++ ex, s5)
        end
      end
    else None
  end.

(** [s] with the prefix [p] removed, when [s] starts with [p]. *)
Fixpoint strip_prefix (p s : jsstring) : option jsstring :=
  match p, s with
  | [], _ => Some s
  | _ :: _, [] => None
  | a :: p', b :: s' => if a =? b then strip_prefix p' s' else None
  end.

(** Defining the property [k] of an object: a property that exists
    keeps its place and takes the new value, a new one goes last. *)
Fixpoint define_property (k : jsstring) (v : json)
    (m : list (jsstring * json)) : list (jsstring * json) :=
  match m with
  | [] => [(k, v)]
  | (k', v') :: m' =>
    if decide (k' = k) then (k, v) :: m'
    else (k', v') :: define_property k v m'
  end.

(** One JSON value at the head of the text, after optional white space.
    The fuel bounds the number of nested calls. *)
Fixpoint parse_value (fuel : nat) (s : jsstring) : option (json * jsstring) :=
  match fuel with
  | O => None
  | S f =>
    match skip_ws s with
    | [] => None
    | c :: r =>
      if c =? 123 then
        match skip_ws r with
        | d :: r' =>
          if d =? 125 then Some (JObject [], r') else parse_members f r []
        | [] => None
        end
      else if c =? 91 then
        match skip_ws r with
        | d :: r' =>
          if d =? 93 then Some (JArray [], r') else parse_elements f r []
        | [] => None
        end
      else if c =? 34 then
        match parse_chars r with
        | Some (str, rest) => Some (JString str, rest)
        | None => None
        end
      else if c =? 116 then
        match strip_prefix (lit "true") (c :: r) with
        | Some rest => Some (JBool true, rest)
        | None => None
        end
      else if c =? 102 then
        match strip_prefix (lit "false") (c :: r) with
        | Some rest => Some (JBool false, rest)
        | None => None
        end
      else if c =? 110 then
        match strip_prefix (lit "null") (c :: r) with
        | Some rest => Some (JNull, rest)
        | None => None
        end
      else
        match parse_number (c :: r) with
        | Some (n, rest) => Some (JNumber n, rest)
        | None => None
        end
    end
  end
with parse_elements (fuel : nat) (s : jsstring) (acc : list json)
    : option (json * jsstring) :=
  match fuel with
  | O => None
  | S f =>
    match parse_value f s with
    | Some (v, r) =>
      match skip_ws r with
      | c :: r' =>
        if c =? 44 then parse_elements f r' (acc ++ [v])
        else if c =? 93 then Some (JArray (acc ++ [v]), r')
        else None
      | [] => None
      end
    | None => None
    end
  end
with parse_members (fuel : nat) (s : jsstring) (acc : list (jsstring * json))
    : option (json * jsstring) :=
  match fuel with
  | O => None
  | S f =>
    match skip_ws s with
    | q :: r =>
      if q =? 34 then
        match parse_chars r with
        | Some (k, r1) =>
          match skip_ws r1 with
          | c :: r2 =>
            if c =? 58 then
              match parse_value f r2 with
              | Some (v, r3) =>
                match skip_ws r3 with
                | d :: r4 =>
                  if d =? 44 then parse_members f r4 (define_property k v acc)
                  else if d =? 125 then
                    Some (JObject (define_property k v acc), r4)
                  else None
                | [] => None
                end
              | None => None
              end
            else None
          | [] => None
          end
        | None => None
        end
      else None
    | [] => None
    end
  end.

(** [JSON.parse(text)]: one value, then nothing but white space; any
    other text is a [SyntaxError]. *)
Definition parse (text : jsstring) : completion json :=
  match parse_value (S (length text)) text with
  | Some (v, rest) =>
    match skip_ws rest with
    | [] => Return v
    | _ :: _ => Throw SyntaxError
    end
  | None => Throw SyntaxError
  end.

(** The values for which parsing undoes serialisation: no number, whose
    literal need not be one that [JSON.stringify] writes, and no two
    properties of one object with the same name. *)
Fixpoint plain (v : json) : bool :=
  match v with
  | JNumber _ => false
  | JArray l => forallb plain l
  | JObject m =>
    bool_decide (NoDup (map fst m)) && forallb (λ kv, plain kv.2) m
  | _ => true
  end.

(** Induction on values, with the hypothesis available for the elements
    of an array and the members of an object. *)
Section json_induction.
Variable P : json → Prop.
Hypothesis HNull : P JNull.
Hypothesis HBool : ∀ b, P (JBool b).
Hypothesis HNumber : ∀ n, P (JNumber n).
Hypothesis HString : ∀ s, P (JString s).
Hypothesis HArray : ∀ l, Forall P l → P (JArray l).
Hypothesis HObject : ∀ m, Forall (λ kv, P kv.2) m → P (JObject m).

Fixpoint json_nested_ind (v : json) : P v :=
  match v with
  | JNull => HNull
  | JBool b => HBool b
  | JNumber n => HNumber n
  | JString s => HString s
  | JArray l =>
    HArray l ((fix go (l : list json) : Forall P l :=
                 match l with
                 | [] => List.Forall_nil P
                 | x :: r => @List.Forall_cons _ P x r (json_nested_ind x) (go r)
                 end) l)
  | JObject m =>
    HObject m ((fix go (m : list (jsstring * json))
                  : Forall (λ kv, P kv.2) m :=
                  match m with
                  | [] => List.Forall_nil _
                  | kv :: r =>
                    @List.Forall_cons _ (λ kv, P kv.2) kv r
                      (json_nested_ind kv.2) (go r)
                  end) m)
  end.
End json_induction.

(** The parsers of this file share a shape: with fuel [f] they read a
    prefix of [s].  Fuel is enough when a success consumes input and is
    reproduced by any fuel that is at least the number of code units
    consumed. *)
Definition enough {A} (p : nat → jsstring → option (A * jsstring)) (f : nat) : Prop :=
  ∀ s v r, p f s = Some (v, r) →
    (length r < length s)%nat ∧
    ∀ f', (length s - length r ≤ f')%nat → p f' s = Some (v, r).

(** A text that begins like a value other than a number. *)
Definition starts_value (s : jsstring) : Prop :=
  ∃ c t, s = c :: t ∧
    (c = 110 ∨ c = 116 ∨ c = 102 ∨ c = 34 ∨ c = 91 ∨ c = 123).

(** With fuel for its own length, the text of [v] is read back as [v],
    whatever follows it. *)
Definition round_trips (v : json) : Prop :=
  ∀ f rest, (length (stringify v) ≤ f)%nat →
    parse_value f (stringify v ++ rest) = Some (v, rest).


End JSON.

(** ** The browser's local storage *)

Module LocalStorage.
Import JS.

(** [localStorage]: string keys, string values.  No quota is modelled:
    [setItem] always succeeds. *)
Abbreviation t := (gmap (list N) (list N)) (only parsing).

Definition getItem (key : jsstring) (ls : t) : option jsstring := ls !! key.
Definition setItem (key value : jsstring) (ls : t) : t := <[key := value]> ls.

End LocalStorage.

(** ** [config.ts] *)

Module Config.
Import JS.

(** The variant with a fixed development address. *)
Definition API_BASE_URL_fixed : jsstring := lit "http://localhost:8080".

(** The variant [import.meta.env.VITE_API_BASE_URL || 'http://localhost:8000']:
    the environment's value unless it is undefined or empty. *)
Definition API_BASE_URL (VITE_API_BASE_URL : option jsstring) : jsstring :=
  match VITE_API_BASE_URL with
  | Some a => if truthy a then a else lit "http://localhost:8000"
  | None => lit "http://localhost:8000"
  end.

End Config.

(** ** [entrypoints/popup/App.tsx] *)

Module App.
Import JS JSON.

(** An entry of the type selector: [{ value: string; label: string }]. *)
Record TypeOption : Type := { value : jsstring; label : jsstring }.


Record TabInfo : Type := { title : jsstring; url : jsstring }.

Inductive Status : Type := idle | loading | success | error.

(** The object literal [{ value: ..., label: ... }] as a JavaScript value. *)
Definition option_json (o : TypeOption) : json :=
  JObject [(lit "value", JString (value o)); (lit "label", JString (label o))].

Definition customTypes_key : jsstring := lit "customTypes".

(** [loadCustomTypes]: what [JSON.parse] yields is returned as it is;
    an absent key or an empty string gives the empty array, and so does
    any exception raised in the body. *)
Definition loadCustomTypes (ls : LocalStorage.t) : completion json :=
  try_catch
    (match LocalStorage.getItem customTypes_key ls with
     | Some saved => if truthy saved then parse saved else Return (JArray [])
     | None => Return (JArray [])
     end)
    (λ _, Return (JArray [])).

(** [saveCustomTypes] *)
Definition saveCustomTypes (types : list TypeOption) (ls : LocalStorage.t)
  : LocalStorage.t :=
  LocalStorage.setItem customTypes_key
    (stringify (JArray (map option_json types))) ls.

(** The state held by the component's [useState] hooks. *)
Record State : Type := {
  tabInfo : TabInfo;
  resourceType : jsstring;
  status : Status;
  message : jsstring;
  customTypes : list TypeOption;
  newTypeName : jsstring;
  showAddType : bool;
}.

Definition initial_state : State := {|
  tabInfo := {| title := []; url := [] |};
  resourceType := lit "article";
  status := idle;
  message := [];
  customTypes := [];
  newTypeName := [];
  showAddType := false;
|}.

Definition setTabInfo (v : TabInfo) (st : State) : State :=
  {| tabInfo := v; resourceType := resourceType st; status := status st;
     message := message st; customTypes := customTypes st;
     newTypeName := newTypeName st; showAddType := showAddType st |}.
Definition setResourceType (v : jsstring) (st : State) : State :=
  {| tabInfo := tabInfo st; resourceType := v; status := status st;
     message := message st; customTypes := customTypes st;
     newTypeName := newTypeName st; showAddType := showAddType st |}.
Definition setStatus (v : Status) (st : State) : State :=
  {| tabInfo := tabInfo st; resourceType := resourceType st; status := v;
     message := message st; customTypes := customTypes st;
     newTypeName := newTypeName st; showAddType := showAddType st |}.
Definition setMessage (v : jsstring) (st : State) : State :=
  {| tabInfo := tabInfo st; resourceType := resourceType st; status := status st;
     message := v; customTypes := customTypes st;
     newTypeName := newTypeName st; showAddType := showAddType st |}.
Definition setCustomTypes (v : list TypeOption) (st : State) : State :=
  {| tabInfo := tabInfo st; resourceType := resourceType st; status := status st;
     message := message st; customTypes := v;
     newTypeName := newTypeName st; showAddType := showAddType st |}.
Definition setNewTypeName (v : jsstring) (st : State) : State :=
  {| tabInfo := tabInfo st; resourceType := resourceType st; status := status st;
     message := message st; customTypes := customTypes st;
     newTypeName := v; showAddType := showAddType st |}.
Definition setShowAddType (v : bool) (st : State) : State :=
  {| tabInfo := tabInfo st; resourceType := resourceType st; status := status st;
     message := message st; customTypes := customTypes st;
     newTypeName := newTypeName st; showAddType := v |}.

(** *** The mount effect that reads the active tab *)

(** A tab as [browser.tabs.query] reports it: both fields are optional. *)
Record Tab : Type := { tab_title : option jsstring; tab_url : option jsstring }.

(** The promise returned by [browser.tabs.query] resolves to an array of
    tabs or rejects. *)
Inductive QueryOutcome : Type :=
| Tabs (tabs : list Tab)
| QueryRejected.

Definition fetchTabInfo (q : QueryOutcome) (st : State) : State :=
  match q with
  | QueryRejected => st
  | Tabs [] => st
  | Tabs (tab :: _) =>
    match tab_title tab, tab_url tab with
    | Some t, Some u =>
      if truthy t && truthy u then
        let st1 := setTabInfo {| title := t; url := u |} st in
        if includes u (lit "youtube.com") || includes u (lit "youtu.be")
        then setResourceType (lit "youtube") st1
        else st1
      else st
    | _, _ => st
    end
  end.

(** *** Saving *)

Record Request : Type := {
  req_url : jsstring;
  req_method : jsstring;
  req_headers : list (jsstring * jsstring);
  req_body : jsstring;
}.

(** How the promise returned by [fetch] settles: with a response, of
    which only [ok] is read, or with a rejection, which either is an
    [Error] object carrying a message or is some other value. *)
Inductive FetchOutcome : Type :=
| Response (ok : bool)
| RejectedWithError (message : jsstring)
| RejectedWithValue.

(** The callback given to [setTimeout] after a successful save. *)
Definition hide_message (st : State) : State := setMessage [] (setStatus idle st).

Record Timer : Type := { delay : N; callback : State → State }.

(** The outcome of one complete run of a handler. *)
Record Run (W : Type) : Type := {
  state : State;
  requests : list Request;
  timers : list Timer;
  world : W;
}.
Arguments state {W} _.
Arguments requests {W} _.
Arguments timers {W} _.
Arguments world {W} _.

Section Handlers.

(** Whatever lies behind the network, with the state it keeps. *)
Context {W : Type}.
Variable fetch : Request → W → FetchOutcome * W.

(** The address imported from [config.ts]. *)
Variable API_BASE_URL : jsstring.

(** [String.prototype.toLowerCase], which follows the Unicode case
    mappings of the host. *)
Variable toLowerCase : jsstring → jsstring.

Definition save_request (st : State) : Request := {|
  req_url := API_BASE_URL ++ lit "/save";
  req_method := lit "POST";
  req_headers := [(lit "Content-Type", lit "application/json")];
  req_body :=
    stringify (JObject [(lit "title", JString (title (tabInfo st)));
                        (lit "url", JString (url (tabInfo st)));
                        (lit "type", JString (resourceType st))]);
|}.

Definition handleSave (st : State) (w : W) : Run W :=
  if negb (truthy (url (tabInfo st))) || negb (truthy (title (tabInfo st))) then
    {| state := setMessage (lit "Missing title or URL") (setStatus error st);
       requests := []; timers := []; world := w |}
  else
    let st1 := setMessage [] (setStatus loading st) in
    let req := save_request st in
    let '(outcome, w') := fetch req w in
    match outcome with
    | Response true =>
      {| state := setMessage (lit "Resource saved successfully!")
                    (setStatus success st1);
         requests := [req];
         timers := [{| delay := 2000; callback := hide_message |}];
         world := w' |}
    | Response false =>
      {| state := setMessage (lit "Failed to save resource") (setStatus error st1);
         requests := [req]; timers := []; world := w' |}
    | RejectedWithError m =>
      {| state := setMessage m (setStatus error st1);
         requests := [req]; timers := []; world := w' |}
    | RejectedWithValue =>
      {| state := setMessage (lit "Failed to save") (setStatus error st1);
         requests := [req]; timers := []; world := w' |}
    end.

(** *** The type selector *)

Definition add_new_sentinel : jsstring := lit "__add_new__".

(** [onChange] of the [select] element *)
Definition onTypeChange (v : jsstring) (st : State) : State :=
  if decide (v = add_new_sentinel) then setShowAddType true st
  else setResourceType v st.

(** The label prefix: the tag emoji, its variation selector, a space. *)
Definition label_prefix : jsstring := [55356; 57335; 65039; 32].

Definition newType (name : jsstring) : TypeOption := {|
  value := replace_ws_plus (lit "-") (toLowerCase name);
  label := label_prefix ++ trim name;
|}.

(** The body shared by the two handlers that add a type. *)
Definition addType (st : State) (ls : LocalStorage.t) : State * LocalStorage.t :=
  let nt := newType (newTypeName st) in
  let updatedTypes := customTypes st ++ [nt] in
  (setShowAddType false
     (setNewTypeName []
        (setResourceType (value nt)
           (setCustomTypes updatedTypes st))),
   saveCustomTypes updatedTypes ls).

(** [onClick] of the Add button *)
Definition onAddClick (st : State) (ls : LocalStorage.t)
  : State * LocalStorage.t :=
  if truthy (trim (newTypeName st)) then addType st ls else (st, ls).

(** [onKeyDown] of the name input *)
Definition onNameKeyDown (key : jsstring) (st : State) (ls : LocalStorage.t)
  : State * LocalStorage.t :=
  if bool_decide (key = lit "Enter") && truthy (trim (newTypeName st))
  then addType st ls else (st, ls).

End Handlers.

(** *** The text fields *)

(** [onChange] of the title and of the URL input *)
Definition onTitleChange (v : jsstring) (st : State) : State :=
  setTabInfo {| title := v; url := url (tabInfo st) |} st.
Definition onUrlChange (v : jsstring) (st : State) : State :=
  setTabInfo {| title := title (tabInfo st); url := v |} st.

(** *** What is rendered *)



(** The status message: rendered only for a message that is not empty,
    with a check mark after a success and a cross otherwise. *)
Definition banner (st : State) : option jsstring :=
  if truthy (message st) then
    Some ((match status st with
           | success => [9989; 32]
           | _ => [10060; 32]
           end) ++ message st)
  else None.

(** The [disabled] attribute of the Save button. *)
Definition save_disabled (st : State) : bool :=
  match status st with loading => true | _ => false end.

(** The footer: the address without its scheme. *)
Definition footer_address (API_BASE_URL : jsstring) : jsstring :=
  replace_first (lit "https://") []
    (replace_first (lit "http://") [] API_BASE_URL).

Definition footer (API_BASE_URL : jsstring) : jsstring :=
  lit "Resources are saved to " ++ footer_address API_BASE_URL.

(** *** The two halves of [handleSave] *)



End App.

(** ** The catalog store *)

Module Catalog.
Import JS.

(** Modelled from the spec: the catalog store (the service's sources,
    [backend/main.py], are not part of the sources at hand).  A resource
    has the five fields of section 3; the store keeps its rows in the
    order of insertion, the next identifier to assign and the current
    time, which only moves forward. *)
Record Resource : Type := {
  id : Z;
  title : jsstring;
  url : jsstring;
  type : jsstring;
  created_at : N;
}.

#[global] Instance Resource_eq_dec : EqDecision Resource.
Proof. solve_decision. Defined.

Record Store : Type := {
  rows : list Resource;
  next_id : Z;
  now : N;
}.

Definition empty : Store := {| rows := []; next_id := 1; now := 0 |}.

Inductive Error : Type := ValidationError | NotFoundError | StorageError.

(** Modelled from the spec: [create] fails with [ValidationError] if the
    title or the URL is empty or missing; otherwise it inserts a row with
    the next identifier and the current time and returns the record. *)
Definition create (title url : option jsstring) (type : jsstring) (s : Store)
  : (Error + Resource) * Store :=
  match title, url with
  | Some t, Some u =>
    if truthy t && truthy u then
      let r := {| id := next_id s; title := t; url := u; type := type;
                  created_at := now s |} in
      (inr r, {| rows := rows s ++ [r]; next_id := (next_id s + 1)%Z;
                 now := now s |})
    else (inl ValidationError, s)
  | _, _ => (inl ValidationError, s)
  end.

(** Modelled from the spec: ordering by [created_at] ascending.  The
    sort is stable: a row goes after the rows that are not newer. *)
Fixpoint insert_by_created_at (r : Resource) (l : list Resource)
  : list Resource :=
  match l with
  | [] => [r]
  | x :: l' =>
    if created_at r <? created_at x then r :: l
    else x :: insert_by_created_at r l'
  end.

Definition sort_by_created_at (l : list Resource) : list Resource :=
  fold_left (λ acc r, insert_by_created_at r acc) l [].

(** Modelled from the spec: [listAll] returns every stored record
    ordered by [created_at] ascending. *)
Definition listAll (s : Store) : list Resource := sort_by_created_at (rows s).

(** Modelled from the spec: [deleteById] removes the record with the
    given identifier if present and returns whether one was removed. *)
Definition deleteById (i : Z) (s : Store) : bool * Store :=
  if existsb (λ r, (id r =? i)%Z) (rows s) then
    (true, {| rows := filter (λ r, id r ≠ i) (rows s); next_id := next_id s;
              now := now s |})
  else (false, s).

(** Time passing between two operations. *)
Definition elapse (d : N) (s : Store) : Store :=
  {| rows := rows s; next_id := next_id s; now := now s + d |}.

(** The operations a client can issue, and what it gets back. *)
Inductive op : Type :=
| Create (title url : option jsstring) (type : jsstring)
| ListAll
| DeleteById (i : Z)
| Elapse (d : N).

Inductive reply : Type :=
| Created (r : Resource)
| Failed (e : Error)
| Listed (l : list Resource)
| Deleted (removed : bool)
| Elapsed.

Definition exec (o : op) (s : Store) : reply * Store :=
  match o with
  | Create t u ty =>
    match create t u ty s with
    | (inr r, s') => (Created r, s')
    | (inl e, s') => (Failed e, s')
    end
  | ListAll => (Listed (listAll s), s)
  | DeleteById i => let '(b, s') := deleteById i s in (Deleted b, s')
  | Elapse d => (Elapsed, elapse d s)
  end.

Fixpoint run (ops : list op) (s : Store) : list reply * Store :=
  match ops with
  | [] => ([], s)
  | o :: ops' =>
    let '(r, s1) := exec o s in
    let '(rs, s2) := run ops' s1 in
    (r :: rs, s2)
  end.

(** The records handed out by the creations of a run, in order. *)
Definition created (rs : list reply) : list Resource :=
  omap (λ r, match r with Created x => Some x | _ => None end) rs.

Definition is_delete (o : op) : bool :=
  match o with DeleteById _ => true | _ => false end.

Definition deletes (i : Z) (o : op) : bool :=
  match o with DeleteById j => (j =? i)%Z | _ => false end.

(** How two records compare by time and by identifier. *)
Definition older (a b : Resource) : Prop := created_at a ≤ created_at b.

(** What every reachable store satisfies: identifiers lie below the
    counter and are distinct, no row is from the future, and the rows
    are in the order of their times. *)
Record inv (s : Store) : Prop := {
  inv_ids : Forall (λ r, (id r < next_id s)%Z) (rows s);
  inv_times : Forall (λ r, created_at r ≤ now s) (rows s);
  inv_nodup : NoDup (map id (rows s));
  inv_sorted : StronglySorted older (rows s);
}.

Definition id_lt (a b : Resource) : Prop := (id a < id b)%Z.

End Catalog.

(** ** The wording of the specification *)

Module Spec.
Import JS.

(** [sub] occurs in [s] as a substring. *)
Definition contains (s sub : jsstring) : Prop :=
  ∃ pre post, s = pre ++ sub ++ post.

(** The maximal runs of a string: consecutive code units that are all
    white space, or all not, each run tagged with its kind. *)
Fixpoint runs (s : jsstring) : list (bool * jsstring) :=
  match s with
  | [] => []
  | c :: s' =>
    match runs s' with
    | (w, run) :: rest =>
      if Bool.eqb w (is_ws c) then (w, c :: run) :: rest
      else (is_ws c, [c]) :: (w, run) :: rest
    | [] => [(is_ws c, [c])]
    end
  end.

(** Neighbouring runs are of different kinds. *)
Fixpoint alternating (l : list (bool * list N)) : Prop :=
  match l with
  | a :: (b :: _) as r => a.1 ≠ b.1 ∧ alternating r
  | _ => True
  end.

(** Every maximal run of white space replaced by a single hyphen. *)
Definition hyphenate_runs (s : jsstring) : jsstring :=
  concat (map (λ wr : bool * jsstring, if wr.1 then [45] else wr.2) (runs s)).

(** The entries of the catalog as the JavaScript array that is stored. *)
Definition catalog_json (types : list App.TypeOption) : JSON.json :=
  JSON.JArray (map App.option_json types).

(** A URL of one of the two video hosts. *)
Definition youtube_url (u : list N) : Prop :=
  contains u (lit "youtube.com") ∨ contains u (lit "youtu.be").

(** The body of a save request: the three string properties. *)
Definition save_body (t u ty : list N) : JSON.json :=
  JSON.JObject [(lit "title", JSON.JString t); (lit "url", JSON.JString u);
           (lit "type", JSON.JString ty)].

(** The code unit that stands for [c] in a slug. *)
Definition hyphen_for_ws (c : N) : N := if is_ws c then 45 else c.

(** The entry that a name yields: the slug of the lower-cased name and
    the tagged, trimmed name. *)
Definition slug_entry (toLowerCase : list N → list N) (name : list N)
  : App.TypeOption :=
  {| App.value := hyphenate_runs (toLowerCase name);
     App.label := App.label_prefix ++ trim name |}.



(** The tab query yields a first tab with a title and a URL, neither
    empty. *)
Definition usable_tab (q : App.QueryOutcome) : Prop :=
  ∃ tab rest t u,
    q = App.Tabs (tab :: rest) ∧ App.tab_title tab = Some t ∧
    App.tab_url tab = Some u ∧ t ≠ [] ∧ u ≠ [].


End Spec.

(** ** Sample data *)

Module Examples.
Import JS App Spec.

(** A service that accepts everything and counts the requests. *)
Definition always_ok : Request → nat → FetchOutcome * nat :=
  λ _ n, (Response true, S n).

(** A popup showing a page, with the type 'tool' chosen. *)
Definition example_state : State :=
  setResourceType (lit "tool")
    (setTabInfo {| title := lit "Rocq"; url := lit "https://rocq-prover.org/" |}
       initial_state).

(** Lower-casing of the ASCII letters, leaving all else as it is. *)
Definition ascii_lower (s : list N) : list N :=
  map (λ c, if (65 <=? c) && (c <=? 90) then c + 32 else c) s.

Definition other_state : State :=
  setCustomTypes [Spec.slug_entry ascii_lower (lit "Must Read")]
    (setMessage (lit "old") example_state).

(** The scenario of three creations. *)
Definition three_creations : list Catalog.op :=
  [ Catalog.Create (Some (lit "Intro to Rust")) (Some (lit "https://example.com/rust"))
      (lit "article");
    Catalog.Elapse 5;
    Catalog.Create (Some (lit "Cool clip")) (Some (lit "https://youtu.be/xyz"))
      (lit "youtube");
    Catalog.Create (Some (lit "Hammer")) (Some (lit "https://example.com/tool"))
      (lit "tool") ].

End Examples.

(** * Properties *)

(** ** Strings *)

Module JSFacts.
Import JS Spec.

Lemma take_drop_while {A} (p : A → bool) (s : list A) :
  take_while p s ++ drop_while p s = s.
Proof.
  induction s as [|c s IH]; simpl; [done|].
  destruct (p c); simpl; [by rewrite IH | done].
Qed.

Lemma take_while_Forall {A} (p : A → bool) (s : list A) :
  Forall (λ c, p c = true) (take_while p s).
Proof.
  induction s as [|c s IH]; simpl; [constructor|].
  destruct (p c) eqn:Hc; [by constructor | constructor].
Qed.

Lemma drop_while_head {A} (p : A → bool) (s : list A) c r :
  drop_while p s = c :: r → p c = false.
Proof.
  induction s as [|d s IH]; simpl; [done|].
  destruct (p d) eqn:Hd; [done|]. by intros [= <- _].
Qed.

Lemma startsWith_spec p s :
  startsWith p s = true ↔ ∃ post, s = p ++ post.
Proof.
  revert s. induction p as [|a p IH]; intros s; simpl.
  - split; [eauto | done].
  - destruct s as [|b s]; simpl.
    + split; [done | by intros [post ?]].
    + rewrite andb_true_iff, N.eqb_eq, IH. split.
      * intros [-> [post ->]]. eauto.
      * intros [post [= -> ->]]. eauto.
Qed.

(** [includes] decides the occurrence of a substring. *)
Lemma includes_spec s sub : includes s sub = true ↔ contains s sub.
Proof.
  unfold contains. induction s as [|c s IH]; simpl.
  - rewrite orb_false_r, startsWith_spec. split.
    + intros [post H]. by exists [], post.
    + intros [pre [post H]]. destruct pre; [eauto|done].
  - rewrite orb_true_iff, startsWith_spec, IH. split.
    + intros [[post H]|[pre [post H]]].
      * by exists [], post.
      * exists (c :: pre), post. by rewrite H.
    + intros [[|d pre] [post H]].
      * left. eauto.
      * right. injection H as -> ->. eauto.
Qed.

Lemma includes_false s sub : includes s sub = false ↔ ¬ contains s sub.
Proof.
  rewrite <- includes_spec. destruct (includes s sub); split; congruence.
Qed.

(** The runs partition the string, each is uniform and not empty, and
    neighbours are of different kinds: they are maximal. *)
Lemma runs_concat s : concat (map snd (runs s)) = s.
Proof.
  induction s as [|c s IH]; simpl; [done|].
  destruct (runs s) as [|[w run] rest]; simpl in *.
  - by rewrite <- IH.
  - destruct (Bool.eqb w (is_ws c)); simpl; by rewrite <- IH.
Qed.

Lemma runs_uniform s :
  Forall (λ wr : bool * list N,
            wr.2 ≠ [] ∧ Forall (λ c, is_ws c = wr.1) wr.2) (runs s).
Proof.
  induction s as [|c s IH]; simpl; [constructor|].
  destruct (runs s) as [|[w run] rest]; simpl in *.
  - repeat constructor; done.
  - destruct (Bool.eqb w (is_ws c)) eqn:Hw.
    + apply Bool.eqb_prop in Hw. inversion IH as [|? ? [? ?] ?]; subst.
      constructor; [|done]. split; [done|]. constructor; done.
    + constructor; [|done]. repeat constructor; done.
Qed.

Lemma runs_alternating s : alternating (runs s).
Proof.
  induction s as [|c s IH]; simpl; [done|].
  destruct (runs s) as [|[w run] rest]; simpl in *; [done|].
  destruct (Bool.eqb w (is_ws c)) eqn:Hw; simpl.
  - done.
  - split; [|done]. apply Bool.eqb_false_iff in Hw. congruence.
Qed.

Lemma runs_head c s :
  ∃ run rest, runs (c :: s) = (is_ws c, c :: run) :: rest.
Proof.
  simpl. destruct (runs s) as [|[w run] rest]; [by eexists _, _|].
  destruct (Bool.eqb w (is_ws c)) eqn:Hw; [|by eexists _, _].
  apply Bool.eqb_prop in Hw. subst. by eexists _, _.
Qed.

Lemma hyphenate_runs_other c s :
  is_ws c = false → hyphenate_runs (c :: s) = c :: hyphenate_runs s.
Proof.
  intros Hc. unfold hyphenate_runs. simpl.
  destruct s as [|d s]; [simpl; by rewrite Hc|].
  destruct (runs_head d s) as (run & rest & ->).
  rewrite Hc. destruct (is_ws d) eqn:Hd; simpl; by rewrite ?Hc, ?Hd.
Qed.

Lemma hyphenate_runs_ws c s :
  is_ws c = true →
  hyphenate_runs (c :: s) = 45 :: hyphenate_runs (drop_while is_ws s).
Proof.
  intros Hc. revert c Hc. induction s as [|d s IH]; intros c Hc.
  - unfold hyphenate_runs. simpl. by rewrite Hc.
  - simpl drop_while. destruct (is_ws d) eqn:Hd.
    + rewrite <- (IH d Hd). unfold hyphenate_runs.
      change (runs (c :: d :: s)) with
        (match runs (d :: s) with
         | (w, run) :: rest =>
           if Bool.eqb w (is_ws c) then (w, c :: run) :: rest
           else (is_ws c, [c]) :: (w, run) :: rest
         | [] => [(is_ws c, [c])]
         end).
      destruct (runs_head d s) as (run & rest & ->).
      rewrite Hc, Hd. simpl. done.
    + unfold hyphenate_runs.
      change (runs (c :: d :: s)) with
        (match runs (d :: s) with
         | (w, run) :: rest =>
           if Bool.eqb w (is_ws c) then (w, c :: run) :: rest
           else (is_ws c, [c]) :: (w, run) :: rest
         | [] => [(is_ws c, [c])]
         end).
      destruct (runs_head d s) as (run & rest & ->).
      rewrite Hc, Hd. simpl. done.
Qed.

(** The global replacement of [\s+] by a hyphen is the replacement of
    every maximal run of white space by one hyphen. *)
Lemma replace_ws_plus_runs s :
  replace_ws_plus (lit "-") s = hyphenate_runs s.
Proof.
  remember (length s) as n eqn:Hn.
  revert s Hn. induction (lt_wf n) as [n _ IH]. intros s ->.
  destruct s as [|c s]; [done|].
  rewrite replace_ws_plus_equation_2.
  destruct (is_ws c) eqn:Hc.
  - rewrite hyphenate_runs_ws by done.
    rewrite (IH (length (drop_while is_ws s))); [done| |done].
    pose proof (length_drop_while is_ws s). simpl. lia.
  - rewrite hyphenate_runs_other by done.
    rewrite (IH (length s)); [done| simpl; lia |done].
Qed.

(** What [trim] removes and what it leaves. *)
Lemma trim_spec s :
  ∃ lead trail,
    s = lead ++ trim s ++ trail ∧
    Forall (λ c, is_ws c = true) lead ∧
    Forall (λ c, is_ws c = true) trail ∧
    (∀ c r, trim s = c :: r → is_ws c = false) ∧
    (∀ r c, trim s = r ++ [c] → is_ws c = false).
Proof.
  exists (take_while is_ws s),
         (reverse (take_while is_ws (reverse (drop_while is_ws s)))).
  unfold trim, trimEnd, trimStart.
  set (m := drop_while is_ws s).
  assert (Hm : m = reverse (drop_while is_ws (reverse m)) ++
                   reverse (take_while is_ws (reverse m))).
  { rewrite <- reverse_app, take_drop_while. by rewrite reverse_involutive. }
  split; [|split; [|split; [|split]]].
  - rewrite <- Hm. unfold m. by rewrite take_drop_while.
  - apply take_while_Forall.
  - apply Forall_reverse, take_while_Forall.
  - intros c r Hr.
    destruct (drop_while is_ws (reverse m)) as [|d r'] eqn:Hd.
    { by rewrite reverse_nil in Hr. }
    destruct m as [|c' m'] eqn:Em.
    { by rewrite reverse_nil in Hd. }
    assert (c' = c) as ->.
    { rewrite Hr in Hm. simpl in Hm. by injection Hm as ->. }
    unfold m in Em. by apply drop_while_head in Em.
  - intros r c Hr.
    assert (drop_while is_ws (reverse m) = c :: reverse r) as Hd.
    { apply (f_equal reverse) in Hr. rewrite reverse_involutive in Hr.
      by rewrite Hr, reverse_app. }
    by apply drop_while_head in Hd.
Qed.

Lemma truthy_nonempty s : truthy s = true ↔ s ≠ [].
Proof. by destruct s. Qed.

Lemma truthy_empty s : truthy s = false ↔ s = [].
Proof. by destruct s. Qed.

Lemma hyphenate_runs_cons c s :
  hyphenate_runs (c :: s) =
  if is_ws c then 45 :: hyphenate_runs (drop_while is_ws s)
  else c :: hyphenate_runs s.
Proof.
  destruct (is_ws c) eqn:Hc;
    [by apply hyphenate_runs_ws | by apply hyphenate_runs_other].
Qed.

(** The slug starts and ends as the text does, with a hyphen in the
    place of white space. *)
Lemma hyphenate_runs_head s :
  head (hyphenate_runs s) = (λ c, if is_ws c then 45 else c) <$> head s.
Proof.
  destruct s as [|c s]; [done|]. rewrite hyphenate_runs_cons.
  simpl. by destruct (is_ws c).
Qed.

Lemma last_drop_while {A} (p : A → bool) (s : list A) :
  drop_while p s ≠ [] → last (drop_while p s) = last s.
Proof.
  induction s as [|c s IH]; simpl; [done|].
  destruct (p c) eqn:Hc; [|done]. intros H. rewrite IH by done.
  destruct s; [done|]. done.
Qed.

Lemma drop_while_nil_last {A} (p : A → bool) (s : list A) c :
  drop_while p s = [] → last s = Some c → p c = true.
Proof.
  induction s as [|d s IH]; simpl; [done|].
  destruct (p d) eqn:Hd; [|done]. intros Hs.
  destruct s as [|e s]; [by intros [= <-]|]. intros Hl. by apply IH.
Qed.

Lemma hyphenate_runs_last s :
  last (hyphenate_runs s) = (λ c, if is_ws c then 45 else c) <$> last s.
Proof.
  remember (length s) as n eqn:Hn.
  revert s Hn. induction (lt_wf n) as [n _ IH]. intros s ->.
  destruct s as [|c s]; [done|]. rewrite hyphenate_runs_cons.
  destruct (is_ws c) eqn:Hc.
  - destruct (drop_while is_ws s) as [|d s'] eqn:Hd.
    + simpl. destruct (last (c :: s)) as [e|] eqn:He.
      * destruct s as [|c' s]; [simpl in He; simplify_eq; simpl; by rewrite Hc|].
        change (last (c :: c' :: s)) with (last (c' :: s)) in He.
        simpl. by rewrite (drop_while_nil_last is_ws _ _ Hd He).
      * by apply last_None in He.
    + assert (last (c :: s) = last (d :: s')) as ->.
      { rewrite <- Hd. destruct s as [|c' s]; [done|].
        change (last (c :: c' :: s)) with (last (c' :: s)).
        symmetry. apply last_drop_while. by rewrite Hd. }
      rewrite <- (IH (length (d :: s'))); [| |done].
      * destruct (hyphenate_runs (d :: s')) eqn:E; [|done].
        rewrite hyphenate_runs_cons in E. by destruct (is_ws d).
      * pose proof (length_drop_while is_ws s) as Hl. rewrite Hd in Hl.
        simpl in *. lia.
  - destruct s as [|c' s]; [simpl; by rewrite Hc|].
    change (last (c :: c' :: s)) with (last (c' :: s)).
    rewrite <- (IH (length (c' :: s))); [| simpl; lia |done].
    destruct (hyphenate_runs (c' :: s)) eqn:E; [|done].
    rewrite hyphenate_runs_cons in E. by destruct (is_ws c').
Qed.

End JSFacts.

(** ** JSON *)

Module JSONFacts.
Import JS JSON.

Lemma hex_value_digit n : n < 16 → hex_value (hex_digit n) = Some n.
Proof.
  intros H. destruct n as [|p]; [reflexivity|].
  do 4 (try destruct p as [p|p|]); try reflexivity; lia.
Qed.

Lemma unicode_escape_value c :
  c < 65536 →
  ((c / 4096 mod 16 * 16 + c / 256 mod 16) * 16 + c / 16 mod 16) * 16
    + c mod 16 = c.
Proof. intros H. zify. Z.to_euclidean_division_equations. lia. Qed.

Lemma parse_chars_unicode_escape c tail :
  c < 65536 →
  parse_chars (unicode_escape c ++ tail) =
  match parse_chars tail with
  | Some (body, rest) => Some (c :: body, rest)
  | None => None
  end.
Proof.
  intros H. unfold unicode_escape. cbn [app parse_chars].
  change (92 =? 34) with false. change (92 =? 92) with true.
  change (117 =? 117) with true. cbv iota.
  rewrite !hex_value_digit by (apply N.mod_lt; lia).
  by rewrite unicode_escape_value.
Qed.

Lemma parse_chars_raw c tail :
  32 ≤ c → c ≠ 34 → c ≠ 92 →
  parse_chars (c :: tail) =
  match parse_chars tail with
  | Some (body, rest) => Some (c :: body, rest)
  | None => None
  end.
Proof.
  intros H1 H2 H3. cbn [parse_chars].
  destruct (N.eqb_spec c 34); [done|]. destruct (N.eqb_spec c 92); [done|].
  destruct (N.ltb_spec c 32); [lia|]. done.
Qed.

Lemma parse_chars_quote_unit c tail :
  is_high_surrogate c = false → is_low_surrogate c = false →
  parse_chars (quote_unit c ++ tail) =
  match parse_chars tail with
  | Some (body, rest) => Some (c :: body, rest)
  | None => None
  end.
Proof.
  intros _ _. unfold quote_unit.
  repeat (match goal with
          | |- context [?a =? ?b] => destruct (N.eqb_spec a b); [subst; reflexivity|]
          end).
  destruct (N.ltb_spec c 32).
  - apply parse_chars_unicode_escape. lia.
  - apply parse_chars_raw; [lia|done|done].
Qed.

Lemma is_high_surrogate_range c :
  is_high_surrogate c = true → 55296 ≤ c ≤ 56319.
Proof.
  unfold is_high_surrogate. intros [?%N.leb_le ?%N.leb_le]%andb_true_iff. lia.
Qed.

Lemma is_low_surrogate_range c :
  is_low_surrogate c = true → 56320 ≤ c ≤ 57343.
Proof.
  unfold is_low_surrogate. intros [?%N.leb_le ?%N.leb_le]%andb_true_iff. lia.
Qed.

Lemma parse_chars_quote_body s rest :
  parse_chars (quote_body s ++ 34 :: rest) = Some (s, rest).
Proof.
  remember (length s) as n eqn:Hn.
  revert s Hn. induction (lt_wf n) as [n _ IH]. intros s ->.
  destruct s as [|c r]; [reflexivity|].
  cbn [quote_body].
  destruct (is_high_surrogate c) eqn:Hh.
  - pose proof (is_high_surrogate_range _ Hh) as Hc.
    destruct r as [|d r'].
    + rewrite parse_chars_unicode_escape by lia. reflexivity.
    + destruct (is_low_surrogate d) eqn:Hl.
      * pose proof (is_low_surrogate_range _ Hl) as Hd.
        cbn [app]. rewrite parse_chars_raw by lia.
        rewrite parse_chars_raw by lia.
        rewrite (IH (length r')); [done|simpl; lia|done].
      * rewrite <- app_assoc, parse_chars_unicode_escape by lia.
        rewrite (IH (length (d :: r'))); [done|simpl; lia|done].
  - destruct (is_low_surrogate c) eqn:Hl.
    + pose proof (is_low_surrogate_range _ Hl) as Hc.
      rewrite <- app_assoc, parse_chars_unicode_escape by lia.
      rewrite (IH (length r)); [done|simpl; lia|done].
    + rewrite <- app_assoc, parse_chars_quote_unit by done.
      rewrite (IH (length r)); [done|simpl; lia|done].
Qed.

Lemma skip_ws_length s : (length (skip_ws s) ≤ length s)%nat.
Proof. apply length_drop_while. Qed.

Lemma parse_chars_length s body rest :
  parse_chars s = Some (body, rest) → (length rest < length s)%nat.
Proof.
  remember (length s) as n eqn:Hn.
  revert s body rest Hn. induction (lt_wf n) as [n _ IH]. intros s body rest -> H.
  destruct s as [|c r]; [done|]. cbn [parse_chars] in H.
  repeat case_match; simplify_eq; simpl;
    try lia;
    match goal with
    | E : parse_chars ?t = Some (_, ?r) |- _ =>
      eapply (IH (length t)) in E; [simpl in *; lia | simpl; lia | done]
    end.
Qed.

Lemma strip_prefix_length p s rest :
  strip_prefix p s = Some rest → length s = (length p + length rest)%nat.
Proof.
  revert s. induction p as [|a p IH]; intros [|b s]; simpl; try done.
  - by intros [= <-].
  - by intros [= <-].
  - case_match; [|done]. intros Hs%IH. lia.
Qed.

Lemma parse_digits_length s ds rest :
  parse_digits s = Some (ds, rest) → (length rest ≤ length s)%nat.
Proof.
  unfold parse_digits. case_match; [done|]. intros [= _ <-].
  apply length_drop_while.
Qed.

Lemma parse_number_length s n rest :
  parse_number s = Some (n, rest) → (length rest < length s)%nat.
Proof.
  unfold parse_number. intros H.
  repeat (case_match; simplify_eq);
    repeat match goal with
    | E : parse_digits _ = Some _ |- _ => apply parse_digits_length in E
    | |- context [drop_while ?p ?l] =>
      lazymatch goal with
      | _ : (length (drop_while p l) ≤ length l)%nat |- _ => fail
      | _ => pose proof (length_drop_while p l)
      end
    | E : context [drop_while ?p ?l] |- _ =>
      lazymatch goal with
      | _ : (length (drop_while p l) ≤ length l)%nat |- _ => fail
      | _ => pose proof (length_drop_while p l)
      end
    | E : drop_while ?p ?l = _ |- _ => apply (f_equal length) in E
    end; simpl in *; try lia.
Qed.

Ltac use_eqs :=
  repeat match goal with
  | E : ?x = _ |- context [match ?x with _ => _ end] => rewrite E
  | E : ?x = _ |- context [if ?x then _ else _] => rewrite E
  end.

Ltac known_length y x :=
  lazymatch goal with
  | _ : (length y ≤ length x)%nat |- _ => idtac
  | _ : (length y < length x)%nat |- _ => idtac
  end.

Ltac len_facts IHv IHe IHm :=
  repeat match goal with
  | E : skip_ws ?x = ?y |- _ =>
    tryif known_length y x then fail
    else (let L := fresh "L" in pose proof (skip_ws_length x) as L; rewrite E in L)
  | E : parse_chars ?x = Some (_, ?y) |- _ =>
    tryif known_length y x then fail
    else pose proof (parse_chars_length _ _ _ E)
  | E : parse_number ?x = Some (_, ?y) |- _ =>
    tryif known_length y x then fail
    else pose proof (parse_number_length _ _ _ E)
  | E : strip_prefix ?p ?x = Some ?y |- _ =>
    lazymatch goal with
    | _ : length x = (length p + length y)%nat |- _ => fail
    | _ => pose proof (strip_prefix_length _ _ _ E)
    end
  | E : parse_value _ ?x = Some (_, ?y) |- _ =>
    tryif known_length y x then fail
    else (let L := fresh "L" in let K := fresh "K" in
          destruct (IHv _ _ _ E) as [L K])
  | E : parse_elements _ ?x _ = Some (_, ?y) |- _ =>
    tryif known_length y x then fail
    else (let L := fresh "L" in let K := fresh "K" in
          destruct (IHe _ _ _ _ E) as [L K])
  | E : parse_members _ ?x _ = Some (_, ?y) |- _ =>
    tryif known_length y x then fail
    else (let L := fresh "L" in let K := fresh "K" in
          destruct (IHm _ _ _ _ E) as [L K])
  end.

Lemma fuel_enough f :
  enough parse_value f ∧
  (∀ acc, enough (λ f s, parse_elements f s acc) f) ∧
  (∀ acc, enough (λ f s, parse_members f s acc) f).
Proof.
  induction f as [|f (IHv & IHe & IHm)]; [by repeat split|].
  split; [|split].
  - intros s v r H. cbn [parse_value] in H.
    repeat case_match; simplify_eq; len_facts IHv IHe IHm;
    (split; [simpl in *; lia|]); (intros [|f'] Hf; [simpl in *; lia|]);
    cbn [parse_value]; use_eqs; try done;
    match goal with K : ∀ f', _ → _ = Some _ |- _ => apply K; simpl in *; lia end.
  - intros acc s v r H. cbn [parse_elements] in H.
    repeat case_match; simplify_eq; len_facts IHv IHe IHm;
    (split; [simpl in *; lia|]); (intros [|f'] Hf; [simpl in *; lia|]);
    cbn [parse_elements];
    match goal with
    | K : ∀ f', _ → parse_value f' _ = Some _ |- _ =>
      rewrite K by (simpl in *; lia)
    end; use_eqs; try done;
    match goal with K : ∀ f', _ → _ = Some _ |- _ => apply K; simpl in *; lia end.
  - intros acc s v r H. cbn [parse_members] in H.
    repeat case_match; simplify_eq; len_facts IHv IHe IHm;
    (split; [simpl in *; lia|]); (intros [|f'] Hf; [simpl in *; lia|]);
    cbn [parse_members]; use_eqs;
    match goal with
    | K : ∀ f', _ → parse_value f' _ = Some _ |- _ =>
      rewrite K by (simpl in *; lia)
    end; use_eqs; try done;
    match goal with K : ∀ f', _ → _ = Some _ |- _ => apply K; simpl in *; lia end.
Qed.

Lemma stringify_head v : plain v = true → starts_value (stringify v).
Proof.
  destruct v as [|[]| | | |]; simpl; try done; intros _; eexists _, _;
    (split; [reflexivity|]); tauto.
Qed.

Lemma skip_ws_value s rest :
  starts_value s → skip_ws (s ++ rest) = s ++ rest.
Proof.
  intros (c & t & -> & Hc). unfold skip_ws. simpl.
  replace (is_json_ws c) with false; [done|].
  destruct Hc as [->|[->|[->|[->|[->| ->]]]]]; reflexivity.
Qed.

Lemma parse_value_quote f s rest :
  parse_value (S f) (quote s ++ rest) = Some (JString s, rest).
Proof.
  unfold quote. cbn [parse_value app]. unfold skip_ws. cbn [drop_while].
  change (is_json_ws 34) with false. cbv iota.
  change (34 =? 123) with false. change (34 =? 91) with false.
  change (34 =? 34) with true. cbv iota.
  rewrite <- app_assoc. cbn [app].
  by rewrite parse_chars_quote_body.
Qed.

Lemma round_trips_intro v :
  (∀ rest, ∃ f, parse_value f (stringify v ++ rest) = Some (v, rest)) →
  round_trips v.
Proof.
  intros H f rest Hf. destruct (H rest) as [f0 H0].
  destruct (fuel_enough f0) as [Hv _]. apply Hv in H0 as [_ K].
  apply K. rewrite length_app. lia.
Qed.

Lemma parse_elements_stringify l :
  Forall (λ v, plain v = true ∧ round_trips v) l → l ≠ [] →
  ∀ acc rest, ∃ f,
    parse_elements f (join_comma (map stringify l) ++ 93 :: rest) acc
    = Some (JArray (acc ++ l), rest).
Proof.
  induction 1 as [|x l [Hp Hx] Hl IH]; [done|]. intros _ acc rest.
  destruct l as [|y l'].
  - exists (S (length (stringify x))). cbn [map join_comma parse_elements].
    rewrite Hx by done. reflexivity.
  - destruct (IH ltac:(done) (acc ++ [x]) rest) as [f Hf].
    destruct (fuel_enough f) as (_ & He & _). apply He in Hf as [_ K].
    set (tail := join_comma (map stringify (y :: l')) ++ 93 :: rest) in *.
    exists (S (length (stringify x) + length tail)).
    change (join_comma (map stringify (x :: y :: l')))
      with (stringify x ++ 44 :: join_comma (map stringify (y :: l'))).
    rewrite <- app_assoc. cbn [app parse_elements].
    rewrite Hx by lia. cbn [skip_ws drop_while].
    change (is_json_ws 44) with false. cbv iota.
    change (44 =? 44) with true. cbv iota.
    rewrite K by lia. by rewrite <- app_assoc.
Qed.

Lemma define_property_fresh k v m :
  k ∉ map fst m → define_property k v m = m ++ [(k, v)].
Proof.
  induction m as [|[k' v'] m IH]; simpl; [done|].
  intros [Hk Hm]%not_elem_of_cons. destruct (decide (k' = k)); [done|].
  by rewrite IH.
Qed.

Lemma parse_members_stringify m :
  Forall (λ kv : list N * json, plain kv.2 = true ∧ round_trips kv.2) m →
  m ≠ [] →
  ∀ acc rest, NoDup (map fst (acc ++ m)) → ∃ f,
    parse_members f
      (join_comma (map (λ kv, quote kv.1 ++ 58 :: stringify kv.2) m)
         ++ 125 :: rest) acc
    = Some (JObject (acc ++ m), rest).
Proof.
  induction 1 as [|[k x] m [Hp Hx] Hm IH]; [done|]. intros _ acc rest Hnd.
  assert (k ∉ map fst acc) as Hk.
  { rewrite map_app in Hnd. apply NoDup_app in Hnd as (_ & Hd & _).
    intros Hin. apply (Hd _ Hin). simpl. left. }
  simpl in Hx.
  destruct m as [|y m'].
  - exists (S (length (stringify x))).
    cbn [map join_comma parse_members fst snd].
    unfold quote at 1. cbn [app skip_ws drop_while].
    change (is_json_ws 34) with false. cbv iota.
    change (34 =? 34) with true. cbv iota.
    rewrite <- !app_assoc. cbn [app]. rewrite parse_chars_quote_body.
    cbn [skip_ws drop_while]. change (is_json_ws 58) with false. cbv iota.
    change (58 =? 58) with true. cbv iota.
    rewrite Hx by done. cbn [skip_ws drop_while].
    change (is_json_ws 125) with false. cbv iota.
    change (125 =? 44) with false. change (125 =? 125) with true. cbv iota.
    by rewrite define_property_fresh.
  - destruct (IH ltac:(done) (acc ++ [(k, x)]) rest) as [f Hf].
    { by rewrite <- app_assoc. }
    destruct (fuel_enough f) as (_ & _ & He). apply He in Hf as [_ K].
    set (tail := join_comma (map (λ kv : list N * json,
                   quote kv.1 ++ 58 :: stringify kv.2) (y :: m'))
                 ++ 125 :: rest) in *.
    exists (S (length (stringify x) + length tail)).
    change (join_comma (map (λ kv : list N * json,
                   quote kv.1 ++ 58 :: stringify kv.2) ((k, x) :: y :: m')))
      with ((quote k ++ 58 :: stringify x) ++ 44 ::
              join_comma (map (λ kv : list N * json,
                   quote kv.1 ++ 58 :: stringify kv.2) (y :: m'))).
    cbn [parse_members].
    unfold quote at 1. cbn [app skip_ws drop_while].
    change (is_json_ws 34) with false. cbv iota.
    change (34 =? 34) with true. cbv iota.
    rewrite <- !app_assoc. cbn [app]. rewrite <- ?app_assoc.
    cbn [app]. rewrite parse_chars_quote_body.
    cbn [skip_ws drop_while]. change (is_json_ws 58) with false. cbv iota.
    change (58 =? 58) with true. cbv iota.
    fold tail. rewrite Hx by lia. cbn [skip_ws drop_while].
    change (is_json_ws 44) with false. cbv iota.
    change (44 =? 44) with true. cbv iota.
    rewrite define_property_fresh by done.
    rewrite K by lia. by rewrite <- app_assoc.
Qed.

Lemma parse_value_stringify v : plain v = true → round_trips v.
Proof.
  induction v as [|b|n|s|l IH|m IH] using json_nested_ind; intros Hp.
  - intros [|f] rest Hf; [simpl in Hf; lia|]. reflexivity.
  - intros [|f] rest Hf; [destruct b; simpl in Hf; lia|]. by destruct b.
  - done.
  - intros [|f] rest Hf; [simpl in Hf; lia|]. apply parse_value_quote.
  - apply round_trips_intro. intros rest. simpl in Hp.
    destruct l as [|x l'].
    + by exists 1%nat.
    + assert (Forall (λ v, plain v = true ∧ round_trips v) (x :: l')) as Hall.
      { rewrite List.forallb_forall in Hp. rewrite Forall_forall in *.
        intros v Hv. pose proof (Hp v (proj1 (list_elem_of_In _ _) Hv)).
        split; [done|]. by apply IH. }
      destruct (parse_elements_stringify _ Hall ltac:(done) [] rest) as [f Hf].
      exists (S f). cbn [stringify]. cbn [app]. rewrite <- app_assoc.
      cbn [app parse_value skip_ws drop_while].
      change (is_json_ws 91) with false. cbv iota.
      change (91 =? 123) with false. change (91 =? 91) with true. cbv iota.
      inversion Hall as [|? ? [Hx _] _]; subst.
      change (drop_while is_json_ws ?s) with (skip_ws s).
      change (join_comma (map stringify (x :: l')) ++ [93] ++ rest)
        with (join_comma (map stringify (x :: l')) ++ 93 :: rest).
      destruct (stringify_head x Hx) as (c & t & Hc & Hcs).
      assert (∃ t', join_comma (map stringify (x :: l')) ++ 93 :: rest
                    = c :: t') as [t' Ht'].
      { simpl. destruct l'; rewrite Hc; simpl; eauto. }
      rewrite Ht' in *. cbn [skip_ws drop_while].
      replace (is_json_ws c) with false
        by (destruct Hcs as [->|[->|[->|[->|[->| ->]]]]]; reflexivity).
      replace (c =? 93) with false
        by (destruct Hcs as [->|[->|[->|[->|[->| ->]]]]]; reflexivity).
      done.
  - apply round_trips_intro. intros rest. simpl in Hp.
    apply andb_true_iff in Hp as [Hnd Hp]. apply bool_decide_eq_true in Hnd.
    destruct m as [|[k x] m'].
    + by exists 1%nat.
    + assert (Forall (λ kv : list N * json,
                plain kv.2 = true ∧ round_trips kv.2) ((k, x) :: m')) as Hall.
      { rewrite List.forallb_forall in Hp. rewrite Forall_forall in *.
        intros v Hv. pose proof (Hp v (proj1 (list_elem_of_In _ _) Hv)).
        split; [done|]. by apply IH. }
      destruct (parse_members_stringify _ Hall ltac:(done) [] rest Hnd)
        as [f Hf].
      exists (S f). cbn [stringify]. cbn [app]. rewrite <- app_assoc.
      cbn [app parse_value skip_ws drop_while].
      change (is_json_ws 123) with false. cbv iota.
      change (123 =? 123) with true. cbv iota.
      change (drop_while is_json_ws ?s) with (skip_ws s).
      match goal with
      | |- context [skip_ws (?j ++ 125 :: rest)] =>
        assert (∃ t', j ++ 125 :: rest = 34 :: t') as [t' Ht']
      end.
      { simpl. destruct m'; unfold quote; simpl; eauto. }
      rewrite Ht' in *. cbn [skip_ws drop_while].
      change (is_json_ws 34) with false. cbv iota.
      change (34 =? 125) with false. cbv iota. done.
Qed.

Theorem parse_stringify v : plain v = true → parse (stringify v) = Return v.
Proof.
  intros Hp. unfold parse.
  pose proof (parse_value_stringify v Hp (S (length (stringify v))) []) as H.
  rewrite app_nil_r in H. rewrite H by lia. reflexivity.
Qed.

End JSONFacts.

(** ** The catalog store *)

Module CatalogFacts.
Import JS Catalog Examples.

Lemma insert_by_created_at_last r l :
  Forall (λ x, created_at x ≤ created_at r) l →
  insert_by_created_at r l = l ++ [r].
Proof.
  induction 1 as [|x l Hx Hl IH]; simpl; [done|].
  destruct (N.ltb_spec (created_at r) (created_at x)); [lia|]. by rewrite IH.
Qed.

Lemma insert_by_created_at_perm r l : insert_by_created_at r l ≡ₚ r :: l.
Proof.
  induction l as [|x l IH]; simpl; [done|].
  case_match; [done|]. rewrite IH. apply Permutation_swap.
Qed.


Lemma sort_by_created_at_snoc l r :
  sort_by_created_at (l ++ [r]) = insert_by_created_at r (sort_by_created_at l).
Proof. unfold sort_by_created_at. by rewrite fold_left_app. Qed.

Lemma sort_by_created_at_perm l : sort_by_created_at l ≡ₚ l.
Proof.
  induction l as [|r l IH] using rev_ind; [done|].
  rewrite sort_by_created_at_snoc, insert_by_created_at_perm, IH.
  by rewrite Permutation_app_comm.
Qed.


Lemma StronglySorted_snoc_inv {A} (R : A → A → Prop) l r :
  StronglySorted R (l ++ [r]) → StronglySorted R l ∧ Forall (λ x, R x r) l.
Proof.
  induction l as [|x l IH]; simpl; [by repeat constructor|].
  intros H. apply StronglySorted_inv in H as [Hs Hx].
  apply IH in Hs as [Hs Hr]. apply Forall_app in Hx as [Hx Hxr].
  split; [by constructor|]. constructor; [|done]. by inversion Hxr.
Qed.

Lemma StronglySorted_snoc {A} (R : A → A → Prop) l r :
  StronglySorted R l → Forall (λ x, R x r) l → StronglySorted R (l ++ [r]).
Proof.
  induction 1 as [|x l Hl IH Hx]; simpl; intros Hr.
  - repeat constructor.
  - inversion Hr; subst. constructor; [by apply IH|].
    apply Forall_app. split; [done|]. by repeat constructor.
Qed.

Lemma Forall_filter' {A} (Q : A → Prop) (P : A → Prop)
    `{∀ x, Decision (P x)} l :
  Forall Q l → Forall Q (filter P l).
Proof.
  rewrite !Forall_forall. intros HQ x [_ Hx]%list_elem_of_filter. by apply HQ.
Qed.

Lemma elem_of_map {A B} (f : A → B) l y :
  y ∈ map f l ↔ ∃ x, y = f x ∧ x ∈ l.
Proof.
  rewrite list_elem_of_In, in_map_iff. split.
  - intros (x & <- & Hx). exists x. by rewrite list_elem_of_In.
  - intros (x & -> & Hx). exists x. by rewrite <- list_elem_of_In.
Qed.

Lemma NoDup_map_filter {A B} (f : A → B) (P : A → Prop)
    `{∀ x, Decision (P x)} l :
  NoDup (map f l) → NoDup (map f (filter P l)).
Proof.
  induction l as [|a l IH]; simpl; [done|].
  intros [Ha Hl]%NoDup_cons. rewrite filter_cons.
  case_decide; [|by apply IH]. simpl. apply NoDup_cons. split; [|by apply IH].
  rewrite elem_of_map. intros (x & Hx & [_ Hin]%list_elem_of_filter).
  apply Ha. rewrite elem_of_map. eauto.
Qed.

Lemma StronglySorted_filter {A} (R : A → A → Prop) (P : A → Prop)
    `{∀ x, Decision (P x)} l :
  StronglySorted R l → StronglySorted R (filter P l).
Proof.
  induction 1 as [|x l Hl IH Hx]; [constructor|].
  rewrite filter_cons. case_decide; [|done].
  constructor; [done|]. by apply Forall_filter'.
Qed.

(** Sorting rows that are already in order changes nothing. *)
Lemma sort_by_created_at_id l :
  StronglySorted older l → sort_by_created_at l = l.
Proof.
  induction l as [|r l IH] using rev_ind; [done|].
  intros [Hs Hr]%StronglySorted_snoc_inv.
  rewrite sort_by_created_at_snoc, IH by done.
  by apply insert_by_created_at_last.
Qed.

Lemma inv_empty : inv empty.
Proof. split; simpl; constructor. Qed.

Lemma create_cases t u ty s :
  (∃ r, create t u ty s = (inr r, {| rows := rows s ++ [r];
                                     next_id := (next_id s + 1)%Z;
                                     now := now s |}) ∧
        id r = next_id s ∧ created_at r = now s ∧
        t = Some (title r) ∧ u = Some (url r) ∧ type r = ty ∧
        title r ≠ [] ∧ url r ≠ []) ∨
  (create t u ty s = (inl ValidationError, s) ∧
   (t = None ∨ t = Some [] ∨ u = None ∨ u = Some [])).
Proof.
  unfold create. destruct t as [[|c t]|], u as [[|d u]|]; simpl;
    try (right; split; [reflexivity|]; tauto).
  left. eexists. split; [reflexivity|]. simpl. by repeat split.
Qed.

Lemma inv_create t u ty s r s' :
  inv s → create t u ty s = (inr r, s') → inv s'.
Proof.
  intros [Hi Ht Hn Hs] Hc.
  destruct (create_cases t u ty s) as [(r' & E & Hid & Hat & _)|[E _]];
    rewrite E in Hc; [|done]. injection Hc as <- <-.
  split; simpl.
  - apply Forall_app. split.
    + eapply Forall_impl; [exact Hi|]. simpl. intros; lia.
    + repeat constructor. lia.
  - apply Forall_app. split; [done|]. repeat constructor. lia.
  - rewrite map_app. apply NoDup_app. split; [done|]. split.
    + intros i (x & -> & Hin)%elem_of_map Hr. simpl in Hr.
      apply list_elem_of_singleton in Hr.
      rewrite Forall_forall in Hi. apply Hi in Hin. lia.
    + simpl. apply NoDup_singleton.
  - apply StronglySorted_snoc; [done|].
    eapply Forall_impl; [exact Ht|]. unfold older. simpl. intros; lia.
Qed.

Lemma deleteById_cases i s :
  (deleteById i s = (true, {| rows := filter (λ r, id r ≠ i) (rows s);
                              next_id := next_id s; now := now s |}) ∧
   i ∈ map id (rows s)) ∨
  (deleteById i s = (false, s) ∧ i ∉ map id (rows s)).
Proof.
  unfold deleteById. destruct (existsb _ _) eqn:E.
  - left. split; [done|]. apply existsb_exists in E as (x & Hx & Hi).
    apply elem_of_map. exists x. split; [lia|by apply list_elem_of_In].
  - right. split; [done|]. intros (x & Hx & Hin)%elem_of_map.
    apply not_true_iff_false in E. apply E. apply existsb_exists.
    exists x. split; [by apply list_elem_of_In|lia].
Qed.

Lemma inv_deleteById i s : inv s → inv (deleteById i s).2.
Proof.
  intros [Hi Ht Hn Hs].
  destruct (deleteById_cases i s) as [[-> _]|[-> _]]; [|done].
  split; simpl.
  - by apply Forall_filter'.
  - by apply Forall_filter'.
  - by apply NoDup_map_filter.
  - by apply StronglySorted_filter.
Qed.

Lemma inv_elapse d s : inv s → inv (elapse d s).
Proof.
  intros [Hi Ht Hn Hs]. split; simpl; try done.
  eapply Forall_impl; [exact Ht|]. simpl. intros; lia.
Qed.

Lemma inv_exec o s : inv s → inv (exec o s).2.
Proof.
  intros H. destruct o as [t u ty| |i|d]; simpl.
  - destruct (create t u ty s) as [[e|r] s'] eqn:E; simpl.
    + destruct (create_cases t u ty s) as [(r' & E' & _)|[E' _]];
        rewrite E' in E; by simplify_eq.
    + by eapply inv_create.
  - done.
  - pose proof (inv_deleteById i s H). by destruct (deleteById i s).
  - by apply inv_elapse.
Qed.

Lemma inv_run ops s : inv s → inv (run ops s).2.
Proof.
  revert s. induction ops as [|o ops IH]; intros s H; simpl; [done|].
  pose proof (inv_exec o s H) as Ho. destruct (exec o s) as [r s1].
  specialize (IH s1 Ho). by destruct (run ops s1).
Qed.

Lemma listAll_rows s : inv s → listAll s = rows s.
Proof. intros H. apply sort_by_created_at_id, H. Qed.

Lemma run_app a b s :
  run (a ++ b) s =
  ((run a s).1 ++ (run b (run a s).2).1, (run b (run a s).2).2).
Proof.
  revert s. induction a as [|o a IH]; intros s; simpl.
  - by destruct (run b s).
  - destruct (exec o s) as [r s1]. rewrite IH.
    destruct (run a s1) as [rs s2]. simpl. by destruct (run b s2).
Qed.

Lemma exec_cases o s :
  (∃ r, exec o s = (Created r, {| rows := rows s ++ [r];
                                  next_id := (next_id s + 1)%Z;
                                  now := now s |}) ∧
        id r = next_id s ∧ is_delete o = false) ∨
  (∃ rp s', exec o s = (rp, s') ∧ created [rp] = [] ∧
            rows s' = rows s ∧ next_id s' = next_id s) ∨
  (∃ i, o = DeleteById i ∧
        exec o s = (Deleted true,
                    {| rows := filter (λ r, id r ≠ i) (rows s);
                       next_id := next_id s; now := now s |})).
Proof.
  destruct o as [t u ty| |i|d]; simpl.
  - destruct (create_cases t u ty s) as [(r' & -> & Hid & _)|[-> _]].
    + left. eauto.
    + right. left. by eexists _, _.
  - right. left. by eexists _, _.
  - destruct (deleteById_cases i s) as [[-> _]|[-> Hi]].
    + right. right. eauto.
    + right. left. by eexists _, _.
  - right. left. by eexists _, _.
Qed.



(** Identifiers are handed out in increasing order, from the counter. *)
Lemma run_created_ids ops s :
  (next_id s ≤ next_id (run ops s).2)%Z ∧
  Forall (λ r, next_id s ≤ id r < next_id (run ops s).2)%Z
    (created (run ops s).1) ∧
  StronglySorted id_lt (created (run ops s).1).
Proof.
  revert s. induction ops as [|o ops IH]; intros s; simpl.
  - repeat split; [lia|constructor|constructor].
  - destruct (exec_cases o s) as
      [(r & -> & Hid & _)|[(rp & s' & -> & Hc & _ & Hn)|(i & -> & ->)]].
    + match goal with |- context [run ops ?s1] =>
        destruct (IH s1) as (H1 & H2 & H3); destruct (run ops s1) as [rs s2]
      end. simpl in *. split; [lia|]. split.
      * constructor; [lia|]. eapply Forall_impl; [exact H2|]. simpl; lia.
      * constructor; [done|]. eapply Forall_impl; [exact H2|].
        unfold id_lt. simpl. lia.
    + destruct (IH s') as (H1 & H2 & H3). destruct (run ops s') as [rs s2].
      simpl in *. unfold created in *. simpl in *.
      destruct rp; simplify_eq; rewrite <- Hn; done.
    + match goal with |- context [run ops ?s1] =>
        destruct (IH s1) as (H1 & H2 & H3); destruct (run ops s1) as [rs s2]
      end. simpl in *. done.
Qed.

Lemma StronglySorted_id_lt_NoDup l :
  StronglySorted id_lt l → NoDup (map id l).
Proof.
  induction 1 as [|x l Hl IH Hx]; simpl; [constructor|].
  apply NoDup_cons. split; [|done].
  intros (y & Hy & Hin)%elem_of_map.
  rewrite Forall_forall in Hx. apply Hx in Hin. unfold id_lt in Hin. lia.
Qed.

(** A record stays while no operation deletes its identifier. *)
Lemma run_keeps r ops s :
  r ∈ rows s →
  forallb (λ o, negb (deletes (id r) o)) ops = true →
  r ∈ rows (run ops s).2.
Proof.
  revert s. induction ops as [|o ops IH]; intros s Hr; simpl; [done|].
  intros [Ho Hops]%andb_true_iff.
  destruct (exec_cases o s) as
      [(r' & -> & _)|[(rp & s' & -> & _ & Hrows & _)|(i & -> & ->)]].
  - match goal with |- context [run ops ?s1] =>
      specialize (IH s1); destruct (run ops s1) as [rs s2]
    end. simpl in *. apply IH; [|done]. apply elem_of_app. by left.
  - specialize (IH s'). destruct (run ops s') as [rs s2]. simpl in *.
    apply IH; [by rewrite Hrows|done].
  - match goal with |- context [run ops ?s1] =>
      specialize (IH s1); destruct (run ops s1) as [rs s2]
    end. simpl in *. apply IH; [|done]. apply list_elem_of_filter.
    split; [|done]. apply negb_true_iff, Z.eqb_neq in Ho. congruence.
Qed.

(** Removing the one row with a given identifier. *)
Lemma filter_unique_id l1 r l2 :
  NoDup (map id (l1 ++ r :: l2)) →
  filter (λ x, id x ≠ id r) (l1 ++ r :: l2) = l1 ++ l2 ∧
  id r ∉ map id (l1 ++ l2).
Proof.
  rewrite !map_app. simpl. intros Hnd.
  apply NoDup_app in Hnd as (H1 & H12 & H2). apply NoDup_cons in H2 as [Hr H2].
  assert (∀ l, id r ∉ map id l → filter (λ x, id x ≠ id r) l = l) as Hf.
  { intros l Hl. induction l as [|x l IH]; [done|]. simpl in Hl.
    apply not_elem_of_cons in Hl as [Hx Hl].
    rewrite filter_cons_True by congruence. by rewrite IH. }
  assert (id r ∉ map id l1) as Hl1.
  { intros Hin. apply (H12 _ Hin). left. }
  split.
  - rewrite filter_app, filter_cons_False by (intros H; by apply H).
    by rewrite !Hf.
  - intros [?|?]%elem_of_app; done.
Qed.

Lemma inv_reachable ops : inv (run ops empty).2.
Proof. apply inv_run, inv_empty. Qed.



(** C5: the identifier returned by a creation, as long as no operation
    has deleted it, names exactly one listed record; [deleteById] on it
    returns true and removes that record and no other, keeping the order
    of the rest; [deleteById] on it again returns false and changes
    nothing, and so does [deleteById] on any store with any identifier
    that is not listed there. *)
Theorem C5_deleteById_removes_exactly (ops more : list op)
    (t u : option (list N)) (ty : list N) (r : Resource) (s1 : Store) :
  create t u ty (run ops empty).2 = (inr r, s1) →
  forallb (λ o, negb (deletes (id r) o)) more = true →
  (deleteById (id r) (run more s1).2).1 = true ∧
  (∃ l1 l2,
     listAll (run more s1).2 = l1 ++ r :: l2 ∧
     listAll (deleteById (id r) (run more s1).2).2 = l1 ++ l2 ∧
     id r ∉ map id (l1 ++ l2)) ∧
  deleteById (id r) (deleteById (id r) (run more s1).2).2
    = (false, (deleteById (id r) (run more s1).2).2) ∧
  (∀ (s : Store) (j : Z),
     j ∉ map id (listAll s) → deleteById j s = (false, s)).
Proof.
  intros Hc Hmore.
  pose proof (inv_reachable ops) as Hinv.
  assert (inv s1) as Hinv1 by by eapply inv_create.
  assert (inv (run more s1).2) as Hinv2 by by apply inv_run.
  assert (r ∈ rows s1) as Hr1.
  { destruct (create_cases t u ty (run ops empty).2)
      as [(r' & E & _)|[E _]]; rewrite E in Hc; [|done].
    injection Hc as <- <-. simpl. apply elem_of_app. right. left. }
  pose proof (run_keeps r more s1 Hr1 Hmore) as Hr2.
  set (s2 := (run more s1).2) in *.
  apply list_elem_of_split in Hr2 as (l1 & l2 & Hrows).
  pose proof (inv_nodup _ Hinv2) as Hnd. rewrite Hrows in Hnd.
  apply filter_unique_id in Hnd as [Hf Hnotin].
  pose proof (inv_deleteById (id r) s2 Hinv2) as Hinv3.
  destruct (deleteById_cases (id r) s2) as [[E Hin]|[E Hin]].
  2:{ exfalso. apply Hin. rewrite Hrows. apply elem_of_map.
      exists r. split; [done|]. apply elem_of_app. right. left. }
  rewrite E in *. simpl in *.
  split; [done|]. split.
  { exists l1, l2. rewrite !listAll_rows by done. simpl.
    by rewrite Hrows, Hf. }
  split.
  { match goal with |- deleteById _ ?s3 = _ =>
      destruct (deleteById_cases (id r) s3) as [[_ Hin3]|[E3 _]]; [|done]
    end. simpl in Hin3. by rewrite Hrows, Hf in Hin3. }
  intros s j Hj.
  destruct (deleteById_cases j s) as [[_ Hjs]|[E' _]]; [|done].
  destruct Hj. apply elem_of_map in Hjs as (x & -> & Hx).
  apply elem_of_map. exists x. split; [done|].
  unfold listAll. by rewrite sort_by_created_at_perm.
Qed.

Lemma C5_deleteById_removes_exactly_witness :
  let r := {| id := 1; title := lit "Intro to Rust";
              url := lit "https://example.com/rust"; type := lit "article";
              created_at := 0 |} in
  let s1 := {| rows := [r]; next_id := 2; now := 0 |} in
  let more := DeleteById 7 :: tail three_creations in
  create (Some (lit "Intro to Rust")) (Some (lit "https://example.com/rust"))
    (lit "article") (run [] empty).2 = (inr r, s1) ∧
  forallb (λ o, negb (deletes (id r) o)) more = true ∧
  (deleteById (id r) (run more s1).2).1 = true.
Proof.
  intros r s1 more. split; [reflexivity|]. split; [reflexivity|].
  apply (C5_deleteById_removes_exactly [] more
           (Some (lit "Intro to Rust")) (Some (lit "https://example.com/rust"))
           (lit "article") r s1); reflexivity.
Defined.

(** C6: in every reachable store the identifiers of the records are
    distinct, and over the whole history the identifiers handed out by
    creations are strictly increasing, hence distinct whether or not the
    records that bore them were deleted; they all lie below the counter
    from which the next creation takes its identifier. *)
Theorem C6_id_unique_never_reused (ops : list op) :
  NoDup (map id (listAll (run ops empty).2)) ∧
  NoDup (map id (created (run ops empty).1)) ∧
  StronglySorted id_lt (created (run ops empty).1) ∧
  Forall (λ r, (id r < next_id (run ops empty).2)%Z)
    (created (run ops empty).1) ∧
  ∀ t u ty,
    match create t u ty (run ops empty).2 with
    | (inr r, _) => id r ∉ map id (created (run ops empty).1)
    | (inl _, _) => True
    end.
Proof.
  pose proof (inv_reachable ops) as Hinv.
  destruct (run_created_ids ops empty) as (Hn & Hall & Hsorted).
  split; [rewrite listAll_rows by done; apply Hinv|].
  split; [by apply StronglySorted_id_lt_NoDup|].
  split; [done|].
  split; [eapply Forall_impl; [exact Hall|]; simpl; lia|].
  intros t u ty.
  destruct (create_cases t u ty (run ops empty).2)
    as [(r & -> & Hid & _)|[-> _]]; [|done].
  intros (x & Hx & Hin)%elem_of_map.
  rewrite Forall_forall in Hall. apply Hall in Hin. lia.
Qed.

End CatalogFacts.

(** ** The popup *)

Module AppFacts.
Import JS JSON App Spec Examples JSFacts JSONFacts.

Lemma requests_handleSave {W} (fetch : Request → W → FetchOutcome * W)
    base st w :
  requests (handleSave fetch base st w) =
  if negb (truthy (url (tabInfo st))) || negb (truthy (title (tabInfo st)))
  then [] else [save_request base st].
Proof.
  unfold handleSave. case_match; [done|].
  destruct (fetch _ w) as [[[]| |] w']; done.
Qed.

(** C1: when the title or the URL is the empty string, [handleSave]
    reports an error with the message "Missing title or URL" and issues no
    request; whatever lies behind the network is left as it was, so a
    listing of it has the same length as before. *)
Theorem C1_save_rejects_empty_fields {W R : Type}
    (fetch : Request → W → FetchOutcome * W) (API_BASE_URL : list N)
    (listAll : W → list R) (st : State) (w : W) :
  title (tabInfo st) = [] ∨ url (tabInfo st) = [] →
  status (state (handleSave fetch API_BASE_URL st w)) = error ∧
  message (state (handleSave fetch API_BASE_URL st w))
    = lit "Missing title or URL" ∧
  requests (handleSave fetch API_BASE_URL st w) = [] ∧
  world (handleSave fetch API_BASE_URL st w) = w ∧
  length (listAll (world (handleSave fetch API_BASE_URL st w)))
    = length (listAll w).
Proof.
  intros H. unfold handleSave.
  assert (negb (truthy (url (tabInfo st)))
          || negb (truthy (title (tabInfo st))) = true) as ->.
  { destruct H as [-> | ->]; simpl; [by rewrite orb_true_r|done]. }
  done.
Qed.

Lemma C1_save_rejects_empty_fields_witness :
  (title (tabInfo initial_state) = [] ∨ url (tabInfo initial_state) = []) ∧
  requests (handleSave always_ok Config.API_BASE_URL_fixed initial_state 0%nat)
    = [].
Proof.
  split; [by left|].
  apply (C1_save_rejects_empty_fields always_ok Config.API_BASE_URL_fixed
           (λ n, replicate n ()) initial_state 0%nat). by left.
Defined.

(** C2: when the title and the URL are not empty, [handleSave] issues
    exactly one request: a POST to the configured address followed by
    [/save], declared as JSON, whose body is the JSON text of an object
    with the three string properties title, url and type and nothing
    else, as parsing the body shows. *)
Theorem C2_save_request {W : Type}
    (fetch : Request → W → FetchOutcome * W) (API_BASE_URL : list N)
    (st : State) (w : W) :
  title (tabInfo st) ≠ [] → url (tabInfo st) ≠ [] →
  ∃ req,
    requests (handleSave fetch API_BASE_URL st w) = [req] ∧
    req_method req = lit "POST" ∧
    req_url req = API_BASE_URL ++ lit "/save" ∧
    req_headers req = [(lit "Content-Type", lit "application/json")] ∧
    req_body req
      = stringify (save_body (title (tabInfo st)) (url (tabInfo st))
                     (resourceType st)) ∧
    parse (req_body req)
      = Return (save_body (title (tabInfo st)) (url (tabInfo st))
                  (resourceType st)).
Proof.
  intros Ht Hu. exists (save_request API_BASE_URL st).
  split.
  { unfold handleSave.
    apply truthy_nonempty in Ht, Hu. rewrite Ht, Hu. simpl.
    destruct (fetch _ w) as [[[]| |] w']; done. }
  do 4 (split; [reflexivity|]).
  apply (parse_stringify (save_body _ _ _)). reflexivity.
Qed.

Lemma C2_save_request_witness :
  title (tabInfo example_state) ≠ [] ∧ url (tabInfo example_state) ≠ [] ∧
  ∃ req,
    requests (handleSave always_ok (Config.API_BASE_URL None) example_state 0%nat)
      = [req] ∧
    req_method req = lit "POST" ∧
    req_url req = Config.API_BASE_URL None ++ lit "/save" ∧
    req_headers req = [(lit "Content-Type", lit "application/json")] ∧
    req_body req
      = stringify (save_body (title (tabInfo example_state))
                     (url (tabInfo example_state))
                     (resourceType example_state)) ∧
    parse (req_body req)
      = Return (save_body (title (tabInfo example_state))
                  (url (tabInfo example_state)) (resourceType example_state)).
Proof.
  split; [done|]. split; [done|].
  apply (C2_save_request always_ok (Config.API_BASE_URL None) example_state 0%nat);
    done.
Defined.

(** C3 as stated fails: a tab whose title is empty keeps the type
    'article' although its URL contains 'youtube.com'. *)
Lemma C3_counterexample :
  ¬ ∀ tab u, tab_url tab = Some u →
      (resourceType (fetchTabInfo (Tabs [tab]) initial_state) = lit "youtube"
       ↔ youtube_url u).
Proof.
  intros H.
  specialize (H {| tab_title := Some [];
                   tab_url := Some (lit "https://www.youtube.com/watch?v=x") |}
                _ eq_refl).
  assert (youtube_url (lit "https://www.youtube.com/watch?v=x")) as Hy.
  { left. by apply includes_spec. }
  apply H in Hy. discriminate Hy.
Qed.

(** C3, amended: the type defaults to 'youtube' exactly when the query
    yields a first tab whose title and URL are both present and not empty
    and whose URL contains 'youtube.com' or 'youtu.be'; in every other
    case it remains 'article'. *)
Theorem C3_default_type (q : QueryOutcome) :
  (resourceType (fetchTabInfo q initial_state) = lit "youtube" ↔
   ∃ tab rest t u,
     q = Tabs (tab :: rest) ∧ tab_title tab = Some t ∧ tab_url tab = Some u ∧
     t ≠ [] ∧ u ≠ [] ∧ youtube_url u) ∧
  (resourceType (fetchTabInfo q initial_state) = lit "youtube" ∨
   resourceType (fetchTabInfo q initial_state) = lit "article").
Proof.
  destruct q as [[|[[t|] [u|]] rest]|]; simpl;
    try (split; [split; [discriminate|]|by right];
         intros (tab & rest' & t' & u' & Hq & Ht' & Hu' & _);
         by simplify_eq).
  destruct (truthy t) eqn:Ht, (truthy u) eqn:Hu; simpl;
    try (split; [split; [discriminate|]|by right];
         intros (tab & rest' & t' & u' & [= <- <-] & [= <-] & [= <-] & Ht' & Hu' & _);
         apply truthy_nonempty in Ht', Hu'; congruence).
  apply truthy_nonempty in Ht, Hu.
  destruct (includes u (lit "youtube.com") || includes u (lit "youtu.be")) eqn:E.
  - split; [|by left]. split; [|done]. intros _.
    exists {| tab_title := Some t; tab_url := Some u |}, rest, t, u.
    repeat split; try done.
    apply orb_true_iff in E as [E|E]; [left|right]; by apply includes_spec.
  - split; [|by right]. split; [discriminate|].
    intros (tab & rest' & t' & u' & [= <- <-] & [= <-] & [= <-] & _ & _ & Hy).
    apply orb_false_iff in E as [E1 E2].
    apply includes_false in E1, E2. by destruct Hy.
Qed.

(** C7: the request that [handleSave] sends is determined by the title,
    the URL and the chosen type: two states that agree on these send the
    same requests, whatever their catalogs of custom types and whatever
    else differs.  Adding a custom type, which is what persists the
    catalog, writes the key 'customTypes' of local storage and no other. *)
Theorem C7_catalog_never_sent {W : Type}
    (fetch1 fetch2 : Request → W → FetchOutcome * W) (API_BASE_URL : list N)
    (toLowerCase : list N → list N) (st1 st2 : State) (w1 w2 : W)
    (ls : gmap (list N) (list N)) :
  title (tabInfo st1) = title (tabInfo st2) →
  url (tabInfo st1) = url (tabInfo st2) →
  resourceType st1 = resourceType st2 →
  requests (handleSave fetch1 API_BASE_URL st1 w1)
    = requests (handleSave fetch2 API_BASE_URL st2 w2) ∧
  delete customTypes_key (onAddClick toLowerCase st1 ls).2
    = delete customTypes_key ls ∧
  delete customTypes_key (saveCustomTypes (customTypes st1) ls)
    = delete customTypes_key ls.
Proof.
  intros Ht Hu Hty. split.
  - rewrite !requests_handleSave. unfold save_request.
    by rewrite Ht, Hu, Hty.
  - split.
    + unfold onAddClick. case_match; [|done]. simpl.
      unfold saveCustomTypes, LocalStorage.setItem. apply delete_insert_eq.
    + unfold saveCustomTypes, LocalStorage.setItem. apply delete_insert_eq.
Qed.

Lemma C7_catalog_never_sent_witness :
  title (tabInfo example_state) = title (tabInfo other_state) ∧
  url (tabInfo example_state) = url (tabInfo other_state) ∧
  resourceType example_state = resourceType other_state ∧
  customTypes example_state ≠ customTypes other_state ∧
  requests (handleSave always_ok Config.API_BASE_URL_fixed example_state 0%nat)
    = requests (handleSave always_ok Config.API_BASE_URL_fixed other_state 7%nat).
Proof.
  do 3 (split; [reflexivity|]). split; [discriminate|].
  apply (C7_catalog_never_sent always_ok always_ok Config.API_BASE_URL_fixed
           ascii_lower example_state other_state 0%nat 7%nat ∅);
    reflexivity.
Defined.

(** C8: when the trimmed name is not empty, adding a custom type appends
    exactly one entry to the catalog; its value is the lower-cased name,
    not trimmed, with every maximal run of white space replaced by one
    hyphen, so that it starts and ends with a hyphen where the lower-cased
    name starts and ends with white space; its label is the tag prefix
    followed by the trimmed name.  The value becomes the selected type and
    the updated catalog is what is saved.  The Enter key does what the Add
    button does. *)
Theorem C8_add_custom_type (toLowerCase : list N → list N) (st : State)
    (ls : gmap (list N) (list N)) :
  trim (newTypeName st) ≠ [] →
  customTypes (onAddClick toLowerCase st ls).1
    = customTypes st ++ [slug_entry toLowerCase (newTypeName st)] ∧
  resourceType (onAddClick toLowerCase st ls).1
    = value (slug_entry toLowerCase (newTypeName st)) ∧
  (onAddClick toLowerCase st ls).2
    = saveCustomTypes
        (customTypes st ++ [slug_entry toLowerCase (newTypeName st)]) ls ∧
  onNameKeyDown toLowerCase (lit "Enter") st ls = onAddClick toLowerCase st ls ∧
  head (value (slug_entry toLowerCase (newTypeName st)))
    = hyphen_for_ws <$> head (toLowerCase (newTypeName st)) ∧
  last (value (slug_entry toLowerCase (newTypeName st)))
    = hyphen_for_ws <$> last (toLowerCase (newTypeName st)).
Proof.
  intros Hn. apply truthy_nonempty in Hn.
  unfold onAddClick, onNameKeyDown. rewrite Hn.
  rewrite bool_decide_eq_true_2 by done. cbn [andb].
  unfold addType, newType, slug_entry. cbn [fst snd value].
  rewrite replace_ws_plus_runs.
  split; [done|]. split; [done|]. split; [done|]. split; [done|].
  split; [apply hyphenate_runs_head | apply hyphenate_runs_last].
Qed.

Lemma C8_add_custom_type_witness :
  trim (newTypeName (setNewTypeName (lit "  Must   Read ") example_state)) ≠ [] ∧
  customTypes
    (onAddClick ascii_lower
       (setNewTypeName (lit "  Must   Read ") example_state) ∅).1
  = [ {| value := lit "-must-read-";
         label := label_prefix ++ lit "Must   Read" |} ].
Proof.
  split; [discriminate|].
  refine (proj1 (C8_add_custom_type ascii_lower
                   (setNewTypeName (lit "  Must   Read ") example_state) ∅ _)).
  discriminate.
Defined.



Lemma option_json_inj : Inj (=) (=) option_json.
Proof. intros [v1 l1] [v2 l2] [= -> ->]. done. Qed.

Lemma catalog_json_inj : Inj (=) (=) catalog_json.
Proof.
  intros a b [= H]. revert b H.
  induction a as [|x a IH]; intros [|y b]; simpl; try done.
  intros [= Hv Hl Hab%IH]. destruct x, y; simpl in *. by subst.
Qed.

Lemma plain_catalog_json types : plain (catalog_json types) = true.
Proof.
  simpl. induction types as [|[v l] types IH]; [done|]. simpl in *.
  by rewrite IH.
Qed.

(** C10: saving a list of entries and loading it gives back the array
    of these entries, in the same order and with the same fields: the
    value loaded denotes no other list. *)
Theorem C10_save_load_round_trip (types : list TypeOption)
    (ls : gmap (list N) (list N)) :
  loadCustomTypes (saveCustomTypes types ls) = Return (catalog_json types) ∧
  Inj (=) (=) catalog_json.
Proof.
  split; [|apply catalog_json_inj].
  unfold loadCustomTypes, saveCustomTypes, LocalStorage.getItem,
    LocalStorage.setItem.
  rewrite lookup_insert_eq.
  change (JArray (map option_json types)) with (catalog_json types).
  rewrite parse_stringify by apply plain_catalog_json. done.
Qed.

End AppFacts.

(** ** More about the popup *)

Module ExtraFacts.
Import JS JSON App Spec Examples JSFacts JSONFacts AppFacts.

Lemma replace_first_absent pat rep s :
  includes s pat = false → replace_first pat rep s = s.
Proof.
  induction s as [|c s IH]; simpl.
  - intros H. apply orb_false_iff in H as [-> _]. done.
  - intros H. apply orb_false_iff in H as [-> H]. by rewrite IH.
Qed.

Lemma startsWith_app p s : startsWith p (p ++ s) = true.
Proof. apply startsWith_spec. eauto. Qed.

Lemma replace_first_prefix pat rep s :
  replace_first pat rep (pat ++ s) = rep ++ s.
Proof.
  destruct pat as [|a pat]; [by destruct s|].
  cbn [replace_first app].
  change (a :: pat ++ s) with ((a :: pat) ++ s).
  rewrite startsWith_app. by rewrite drop_app_length.
Qed.

(** The footer shows the address without its scheme: for a host in
    which neither scheme occurs, the address with 'http://' or 'https://'
    in front is shown as the host, and the host alone as itself. *)
Theorem footer_strips_scheme (host : list N) :
  includes host (lit "http://") = false →
  includes host (lit "https://") = false →
  footer_address (lit "http://" ++ host) = host ∧
  footer_address (lit "https://" ++ host) = host ∧
  footer_address host = host ∧
  footer (lit "https://" ++ host) = lit "Resources are saved to " ++ host.
Proof.
  intros H1 H2. unfold footer, footer_address. repeat split.
  - rewrite replace_first_prefix. simpl. by apply replace_first_absent.
  - rewrite (replace_first_absent (lit "http://")).
    + by rewrite replace_first_prefix.
    + simpl. exact H1.
  - rewrite (replace_first_absent (lit "http://")) by done.
    by apply replace_first_absent.
  - rewrite (replace_first_absent (lit "http://")).
    + by rewrite replace_first_prefix.
    + simpl. exact H1.
Qed.

Lemma footer_strips_scheme_witness :
  includes (lit "localhost:8000") (lit "http://") = false ∧
  includes (lit "localhost:8000") (lit "https://") = false ∧
  footer_address (lit "http://" ++ lit "localhost:8000") = lit "localhost:8000".
Proof.
  split; [reflexivity|]. split; [reflexivity|].
  apply (footer_strips_scheme (lit "localhost:8000")); reflexivity.
Defined.



(** After [handleSave] the Save button is enabled and a status message
    is shown, except when [fetch] rejected with an [Error] whose message
    is empty: then the status is error and nothing is shown.  The timer
    set after a success hides the message. *)
Theorem banner_after_save {W : Type}
    (fetch : Request → W → FetchOutcome * W) (API_BASE_URL : list N)
    (st : State) (w : W) :
  (banner (state (handleSave fetch API_BASE_URL st w)) = None ↔
   requests (handleSave fetch API_BASE_URL st w) ≠ [] ∧
   (fetch (save_request API_BASE_URL st) w).1 = RejectedWithError []) ∧
  save_disabled (state (handleSave fetch API_BASE_URL st w)) = false ∧
  Forall (λ t, banner (callback t (state (handleSave fetch API_BASE_URL st w)))
               = None)
    (timers (handleSave fetch API_BASE_URL st w)).
Proof.
  unfold handleSave.
  destruct (negb _ || negb _) eqn:E; simpl.
  - split; [split; [done|by intros [? _]]|]. split; [done|constructor].
  - destruct (fetch (save_request API_BASE_URL st) w) as [[[]|m|] w']; simpl.
    + split; [split; [done|by intros [_ ?]]|]. split; [done|].
      by repeat constructor.
    + split; [split; [done|by intros [_ ?]]|]. split; [done|constructor].
    + split; [|split; [done|constructor]].
      unfold banner. simpl. destruct m; simpl; split; try done.
      by intros [_ ?].
    + split; [split; [done|by intros [_ ?]]|]. split; [done|constructor].
Qed.

Lemma drop_while_nil_iff {A} (p : A → bool) (s : list A) :
  drop_while p s = [] ↔ Forall (λ c, p c = true) s.
Proof.
  induction s as [|c s IH]; simpl; [by split; [constructor|]|].
  destruct (p c) eqn:Hc.
  - rewrite IH. split; [by constructor|by inversion 1].
  - split; [done|]. inversion 1; congruence.
Qed.

(** [trim] leaves nothing exactly of the strings that are all white
    space. *)
Lemma trim_nil_iff s : trim s = [] ↔ Forall (λ c, is_ws c = true) s.
Proof.
  unfold trim, trimEnd, trimStart. split.
  - intros H. apply (f_equal reverse) in H.
    rewrite reverse_involutive, reverse_nil in H.
    apply drop_while_nil_iff in H. apply Forall_reverse in H.
    rewrite reverse_involutive in H.
    destruct (drop_while is_ws s) as [|c m] eqn:Hm.
    + by apply drop_while_nil_iff.
    + apply drop_while_head in Hm. inversion H; congruence.
  - intros H. apply drop_while_nil_iff in H. by rewrite H.
Qed.

(** The Add button changes nothing exactly when the name consists of
    white space only (or is empty); a key press changes nothing exactly
    when the key is not Enter or the name is such. *)
Theorem blank_name_adds_nothing (toLowerCase : list N → list N) (st : State)
    (ls : gmap (list N) (list N)) :
  (onAddClick toLowerCase st ls = (st, ls) ↔
   Forall (λ c, is_ws c = true) (newTypeName st)) ∧
  (∀ key, onNameKeyDown toLowerCase key st ls = (st, ls) ↔
          key ≠ lit "Enter" ∨ Forall (λ c, is_ws c = true) (newTypeName st)).
Proof.
  assert (addType toLowerCase st ls ≠ (st, ls)) as Hne.
  { unfold addType. intros [= H _]. apply (f_equal customTypes) in H.
    simpl in H. apply (f_equal length) in H. rewrite length_app in H.
    simpl in H. lia. }
  split.
  - rewrite <- trim_nil_iff.
    unfold onAddClick. destruct (trim (newTypeName st)); simpl; [by split|].
    split; [intros H; by destruct (Hne H)|done].
  - intros key. rewrite <- trim_nil_iff.
    unfold onNameKeyDown. case_bool_decide as Hk; simpl.
    + destruct (trim (newTypeName st)); simpl; [by split; [intros _; right|]|].
      split; [intros H; by destruct (Hne H)|]. by intros [?|?].
    + split; [by left|done].
Qed.

Lemma load_after_save (types : list TypeOption)
    (ls : gmap (list N) (list N)) :
  loadCustomTypes (saveCustomTypes types ls) = Return (catalog_json types).
Proof.
  unfold loadCustomTypes, saveCustomTypes, LocalStorage.getItem,
    LocalStorage.setItem.
  rewrite lookup_insert_eq.
  change (JArray (map option_json types)) with (catalog_json types).
  by rewrite parse_stringify by apply plain_catalog_json.
Qed.

(** A type that was added is there when the catalog is loaded again:
    after [onAddClick] with a name that is not blank, [loadCustomTypes]
    returns the array of the catalog held by the component, the old
    entries followed by the new one. *)
Theorem added_type_is_loaded (toLowerCase : list N → list N) (st : State)
    (ls : gmap (list N) (list N)) :
  trim (newTypeName st) ≠ [] →
  loadCustomTypes (onAddClick toLowerCase st ls).2
  = Return (catalog_json
              (customTypes st ++ [slug_entry toLowerCase (newTypeName st)])) ∧
  loadCustomTypes (onAddClick toLowerCase st ls).2
  = Return (catalog_json (customTypes (onAddClick toLowerCase st ls).1)).
Proof.
  intros Hn. apply truthy_nonempty in Hn. unfold onAddClick. rewrite Hn.
  unfold addType. cbn [fst snd]. rewrite load_after_save.
  unfold newType, slug_entry. by rewrite replace_ws_plus_runs.
Qed.

Lemma added_type_is_loaded_witness :
  trim (newTypeName (setNewTypeName (lit " To Do ") example_state)) ≠ [] ∧
  loadCustomTypes
    (onAddClick ascii_lower (setNewTypeName (lit " To Do ") example_state) ∅).2
  = Return (catalog_json
              [ {| value := lit "-to-do-"; label := label_prefix ++ lit "To Do" |} ]).
Proof.
  split; [discriminate|].
  refine (proj1 (added_type_is_loaded ascii_lower
                   (setNewTypeName (lit " To Do ") example_state) ∅ _)).
  discriminate.
Defined.

(** After a type has been added the row with the name input is closed
    and the name is cleared.  Choosing the last option of the selector
    opens the row again, leaves the chosen type as it is and shows an
    empty name, and the Add button then adds nothing. *)
Theorem add_row_reopens_empty (toLowerCase : list N → list N) (st : State)
    (ls : gmap (list N) (list N)) :
  showAddType st = true →
  trim (newTypeName st) ≠ [] →
  showAddType (onAddClick toLowerCase st ls).1 = false ∧
  newTypeName (onAddClick toLowerCase st ls).1 = [] ∧
  showAddType (onTypeChange add_new_sentinel (onAddClick toLowerCase st ls).1)
    = true ∧
  newTypeName (onTypeChange add_new_sentinel (onAddClick toLowerCase st ls).1)
    = [] ∧
  resourceType (onTypeChange add_new_sentinel (onAddClick toLowerCase st ls).1)
    = resourceType (onAddClick toLowerCase st ls).1 ∧
  onAddClick toLowerCase
    (onTypeChange add_new_sentinel (onAddClick toLowerCase st ls).1)
    (onAddClick toLowerCase st ls).2
  = (onTypeChange add_new_sentinel (onAddClick toLowerCase st ls).1,
     (onAddClick toLowerCase st ls).2).
Proof.
  intros _ Hn. apply truthy_nonempty in Hn.
  assert (onAddClick toLowerCase st ls = addType toLowerCase st ls) as ->.
  { unfold onAddClick. by rewrite Hn. }
  unfold onTypeChange. rewrite decide_True by done.
  unfold addType. cbn [fst snd].
  do 5 (split; [reflexivity|]). reflexivity.
Qed.

Lemma add_row_reopens_empty_witness :
  showAddType
    (setShowAddType true (setNewTypeName (lit "Later") example_state)) = true ∧
  trim (newTypeName
          (setShowAddType true (setNewTypeName (lit "Later") example_state)))
    ≠ [] ∧
  showAddType
    (onAddClick ascii_lower
       (setShowAddType true (setNewTypeName (lit "Later") example_state)) ∅).1
  = false.
Proof.
  split; [reflexivity|]. split; [discriminate|].
  refine (proj1 (add_row_reopens_empty ascii_lower
                   (setShowAddType true
                      (setNewTypeName (lit "Later") example_state)) ∅ _ _));
    [reflexivity|discriminate].
Defined.

Lemma hyphenate_runs_no_ws s :
  Forall (λ c, is_ws c = false) (hyphenate_runs s).
Proof.
  remember (length s) as n eqn:Hn.
  revert s Hn. induction (lt_wf n) as [n _ IH]. intros s ->.
  destruct s as [|c s]; [constructor|]. rewrite hyphenate_runs_cons.
  destruct (is_ws c) eqn:Hc.
  - constructor; [reflexivity|].
    apply (IH (length (drop_while is_ws s))); [|done].
    pose proof (length_drop_while is_ws s). simpl. lia.
  - constructor; [done|]. apply (IH (length s)); [simpl; lia|done].
Qed.

Lemma hyphenate_runs_fixed s :
  Forall (λ c, is_ws c = false) s → hyphenate_runs s = s.
Proof.
  induction 1 as [|c s Hc Hs IH]; [done|].
  by rewrite hyphenate_runs_cons, Hc, IH.
Qed.

Lemma hyphenate_runs_length s : (length (hyphenate_runs s) ≤ length s)%nat.
Proof.
  remember (length s) as n eqn:Hn.
  revert s Hn. induction (lt_wf n) as [n _ IH]. intros s ->.
  destruct s as [|c s]; [done|]. rewrite hyphenate_runs_cons.
  destruct (is_ws c) eqn:Hc; simpl.
  - pose proof (length_drop_while is_ws s) as Hd.
    pose proof (IH (length (drop_while is_ws s)) ltac:(simpl; lia) _ eq_refl).
    lia.
  - pose proof (IH (length s) ltac:(simpl; lia) _ eq_refl). lia.
Qed.

(** The value of a new type contains no white space, is no longer
    than the lower-cased name, is left as it is by a second replacement,
    and equals the lower-cased name exactly when that has no white
    space. *)
Theorem slug_has_no_white_space (toLowerCase : list N → list N)
    (name : list N) :
  Forall (λ c, is_ws c = false) (value (newType toLowerCase name)) ∧
  (length (value (newType toLowerCase name)) ≤ length (toLowerCase name))%nat ∧
  replace_ws_plus (lit "-") (value (newType toLowerCase name))
    = value (newType toLowerCase name) ∧
  (value (newType toLowerCase name) = toLowerCase name ↔
   Forall (λ c, is_ws c = false) (toLowerCase name)).
Proof.
  unfold newType. cbn [value]. rewrite !replace_ws_plus_runs.
  split; [apply hyphenate_runs_no_ws|].
  split; [apply hyphenate_runs_length|].
  split; [apply hyphenate_runs_fixed, hyphenate_runs_no_ws|].
  split; [|apply hyphenate_runs_fixed].
  intros <-. apply hyphenate_runs_no_ws.
Qed.

Lemma fetchTabInfo_usable tab rest t u st :
  tab_title tab = Some t → tab_url tab = Some u → t ≠ [] → u ≠ [] →
  fetchTabInfo (Tabs (tab :: rest)) st =
  if includes u (lit "youtube.com") || includes u (lit "youtu.be")
  then setResourceType (lit "youtube") (setTabInfo {| title := t; url := u |} st)
  else setTabInfo {| title := t; url := u |} st.
Proof.
  intros Ht Hu Hnt Hnu. unfold fetchTabInfo. rewrite Ht, Hu.
  apply truthy_nonempty in Hnt, Hnu. by rewrite Hnt, Hnu.
Qed.

Lemma fetchTabInfo_unusable q st : ¬ usable_tab q → fetchTabInfo q st = st.
Proof.
  intros H. destruct q as [[|[[t|] [u|]] rest]|]; simpl; try done.
  destruct (truthy t) eqn:Ht, (truthy u) eqn:Hu; simpl; try done.
  destruct H. eexists _, rest, t, u.
  apply truthy_nonempty in Ht, Hu. by repeat split.
Qed.

(** Saving right after the popup has opened issues no request exactly
    when the tab query gave no first tab with a title and a URL that are
    both present and not empty. *)
Theorem save_needs_usable_tab {W : Type}
    (fetch : Request → W → FetchOutcome * W) (API_BASE_URL : list N)
    (q : QueryOutcome) (w : W) :
  requests (handleSave fetch API_BASE_URL (fetchTabInfo q initial_state) w) = []
  ↔ ¬ usable_tab q.
Proof.
  rewrite requests_handleSave. split.
  - intros H (tab & rest & t & u & -> & Ht & Hu & Hnt & Hnu).
    rewrite (fetchTabInfo_usable _ _ t u) in H by done.
    apply truthy_nonempty in Hnt, Hnu.
    destruct (includes u _ || includes u _); simpl in H;
      by rewrite Hnt, Hnu in H.
  - intros H. by rewrite fetchTabInfo_unusable.
Qed.

(** For a first tab with a title and a URL, saving right after the popup
    has opened sends one request whose body holds that title, that URL
    and the detected type: 'youtube' exactly for a URL with 'youtube.com'
    or 'youtu.be', and 'article' otherwise. *)
Theorem save_sends_tab {W : Type}
    (fetch : Request → W → FetchOutcome * W) (API_BASE_URL : list N)
    (tab : Tab) (rest : list Tab) (t u : list N) (w : W) :
  tab_title tab = Some t → tab_url tab = Some u → t ≠ [] → u ≠ [] →
  ∃ req ty,
    requests (handleSave fetch API_BASE_URL
                (fetchTabInfo (Tabs (tab :: rest)) initial_state) w) = [req] ∧
    parse (req_body req) = Return (save_body t u ty) ∧
    (ty = lit "youtube" ↔ youtube_url u) ∧
    (ty = lit "youtube" ∨ ty = lit "article").
Proof.
  intros Ht Hu Hnt Hnu.
  rewrite requests_handleSave, (fetchTabInfo_usable _ _ t u) by done.
  apply truthy_nonempty in Hnt as Hnt', Hnu as Hnu'.
  destruct (includes u (lit "youtube.com") || includes u (lit "youtu.be")) eqn:E;
    simpl; rewrite Hnt', Hnu'; simpl.
  - eexists _, (lit "youtube"). split; [reflexivity|].
    split; [apply (parse_stringify (save_body _ _ _)); reflexivity|].
    split; [|by left]. split; [|done]. intros _.
    apply orb_true_iff in E as [E|E]; [left|right]; by apply includes_spec.
  - eexists _, (lit "article"). split; [reflexivity|].
    split; [apply (parse_stringify (save_body _ _ _)); reflexivity|].
    split; [|by right]. split; [discriminate|].
    apply orb_false_iff in E as [E1 E2]. apply includes_false in E1, E2.
    by intros [?|?].
Qed.

Lemma save_sends_tab_witness :
  ∃ req ty,
    requests (handleSave always_ok Config.API_BASE_URL_fixed
                (fetchTabInfo
                   (Tabs [ {| tab_title := Some (lit "Cool clip");
                              tab_url := Some (lit "https://youtu.be/xyz") |} ])
                   initial_state) 0%nat) = [req] ∧
    parse (req_body req)
      = Return (save_body (lit "Cool clip") (lit "https://youtu.be/xyz") ty) ∧
    (ty = lit "youtube" ↔ youtube_url (lit "https://youtu.be/xyz")) ∧
    (ty = lit "youtube" ∨ ty = lit "article").
Proof.
  apply (save_sends_tab always_ok Config.API_BASE_URL_fixed
           {| tab_title := Some (lit "Cool clip");
              tab_url := Some (lit "https://youtu.be/xyz") |} []
           (lit "Cool clip") (lit "https://youtu.be/xyz") 0%nat);
    [reflexivity|reflexivity|discriminate|discriminate].
Defined.



Lemma stringify_truthy v : plain v = true → truthy (stringify v) = true.
Proof.
  intros (c & t & -> & _)%stringify_head. done.
Qed.

(** [loadCustomTypes] does not check what it parses: whatever value
    (without numbers, with distinct property names) is stored as JSON
    under the key comes back as it is, array or not. *)
Theorem loadCustomTypes_unchecked (v : json) (ls : gmap (list N) (list N)) :
  plain v = true →
  loadCustomTypes (LocalStorage.setItem customTypes_key (stringify v) ls)
  = Return v.
Proof.
  intros Hv. unfold loadCustomTypes, LocalStorage.getItem, LocalStorage.setItem.
  rewrite lookup_insert_eq, stringify_truthy by done.
  by rewrite parse_stringify.
Qed.

Lemma loadCustomTypes_unchecked_witness :
  plain (JObject [(lit "value", JNull)]) = true ∧
  loadCustomTypes
    (LocalStorage.setItem customTypes_key
       (stringify (JObject [(lit "value", JNull)])) ∅)
  = Return (JObject [(lit "value", JNull)]).
Proof.
  split; [reflexivity|].
  apply (loadCustomTypes_unchecked (JObject [(lit "value", JNull)]) ∅).
  reflexivity.
Defined.

(** After the title and the URL have been edited, saving sends nothing
    exactly when one of the two is empty, and otherwise a body with the
    edited title and URL and the chosen type; clearing either field alone
    blocks the save. *)
Theorem save_sends_edits {W : Type}
    (fetch : Request → W → FetchOutcome * W) (API_BASE_URL : list N)
    (st : State) (t u : list N) (w : W) :
  (requests (handleSave fetch API_BASE_URL
               (onUrlChange u (onTitleChange t st)) w) = [] ↔
   t = [] ∨ u = []) ∧
  Forall (λ req, parse (req_body req)
                 = Return (save_body t u (resourceType st)))
    (requests (handleSave fetch API_BASE_URL
                 (onUrlChange u (onTitleChange t st)) w)) ∧
  (requests (handleSave fetch API_BASE_URL (onTitleChange [] st) w) = [] ∧
   requests (handleSave fetch API_BASE_URL (onUrlChange [] st) w) = []).
Proof.
  rewrite !requests_handleSave. simpl.
  split; [|split].
  - destruct t, u; simpl; split; try done; try (by intros [?|?]); eauto.
  - destruct t, u; simpl; try constructor; [|constructor].
    apply (parse_stringify (save_body _ _ _)). reflexivity.
  - split; [by rewrite orb_true_r|done].
Qed.

End ExtraFacts.
